(** * European swaption pricing under Hull-White: a shallow embedding

    The notebook [European.ipynb] simulates Hull-White short-rate paths,
    aggregates them into per-period discount exponents, values the
    underlying receiver swap with the affine bond formula and averages the
    discounted positive parts.

    The numeric code is embedded over an abstract arithmetic [Arith F]: the
    operations numpy performs on floats are the methods of the class and the
    embedding applies them in the order the interpreter does.  Statements
    that only depend on the shape of the computation are proved for every
    arithmetic, binary64 included; statements that need algebra or order
    are proved for the instance over the real numbers (exact arithmetic, no
    rounding).  The instance over binary64 floats evaluates the code where
    rounding decides which dates and steps it visits. *)

From Stdlib Require Import Floats.
From Stdlib Require Import ZArith List Lia Bool Reals Lra.
Import ListNotations.

Set Implicit Arguments.

(** ** Exceptions and results *)

(** The exception classes.  The first three are the ones the interpreter and
    numpy raise in the functions below; the last two are the names used by
    the specification's error taxonomy. *)
Inductive pyexn : Type :=
| IndexError
| ValueError
| ZeroDivisionError
| InvalidEnsembleSizeError
| InvalidCurveError.

Inductive result (A : Type) : Type :=
| Ok (a : A)
| Raise (e : pyexn).

Arguments Ok {A} a.
Arguments Raise {A} e.

Definition bind {A B : Type} (m : result A) (k : A -> result B) : result B :=
  match m with
  | Ok a => k a
  | Raise e => Raise e
  end.

Declare Scope py_scope.
Delimit Scope py_scope with py.
Notation "x <- m ;; k" := (bind m (fun x => k))
  (at level 61, m at next level, right associativity) : py_scope.

(** ** Sequences with Python indexing *)

(** [for x in xs: s = body(x, s)], stopping at the first exception. *)
Fixpoint for_each {A S : Type} (xs : list A) (body : A -> S -> result S) (s : S)
  : result S :=
  match xs with
  | [] => Ok s
  | x :: xs' =>
      match body x s with
      | Ok s' => for_each xs' body s'
      | Raise e => Raise e
      end
  end.

(** [[f(x) for x in xs]] where [f] may raise. *)
Fixpoint map_result {A B : Type} (f : A -> result B) (xs : list A)
  : result (list B) :=
  match xs with
  | [] => Ok []
  | x :: xs' =>
      match f x with
      | Ok y =>
          match map_result f xs' with
          | Ok ys => Ok (y :: ys)
          | Raise e => Raise e
          end
      | Raise e => Raise e
      end
  end.

(** [range(lo, hi)]. *)
Definition py_range (lo hi : Z) : list Z :=
  map (fun i => (lo + Z.of_nat i)%Z) (seq 0 (Z.to_nat (hi - lo))).

(** A Python index resolved against a length: negative indices count from
    the end, anything still outside [0, len) is out of range. *)
Definition resolve_index (len : nat) (i : Z) : option nat :=
  let j := if (i <? 0)%Z then (i + Z.of_nat len)%Z else i in
  if ((0 <=? j) && (j <? Z.of_nat len))%Z then Some (Z.to_nat j) else None.

(** [l[i]]. *)
Definition get_item {A : Type} (l : list A) (i : Z) : result A :=
  match resolve_index (length l) i with
  | Some k =>
      match nth_error l k with
      | Some x => Ok x
      | None => Raise IndexError
      end
  | None => Raise IndexError
  end.

Fixpoint update {A : Type} (l : list A) (k : nat) (v : A) : list A :=
  match l, k with
  | [], _ => []
  | _ :: l', O => v :: l'
  | x :: l', S k' => x :: update l' k' v
  end.

(** [l[i] = v]. *)
Definition set_item {A : Type} (l : list A) (i : Z) (v : A) : result (list A) :=
  match resolve_index (length l) i with
  | Some k => Ok (update l k v)
  | None => Raise IndexError
  end.

(** A slice bound resolved against a length: negative bounds count from the
    end and the result is clipped to [0, len]. *)
Definition resolve_bound (len : nat) (i : Z) : nat :=
  let j := if (i <? 0)%Z then (i + Z.of_nat len)%Z else i in
  Nat.min (Z.to_nat j) len.

(** [l[lo:hi]]. *)
Definition slice {A : Type} (l : list A) (lo hi : Z) : list A :=
  let a := resolve_bound (length l) lo in
  let b := resolve_bound (length l) hi in
  firstn (b - a) (skipn a l).

(** [l[:hi]]. *)
Definition slice_to {A : Type} (l : list A) (hi : Z) : list A :=
  firstn (resolve_bound (length l) hi) l.

(** ** The arithmetic of the program *)

Class Arith (F : Type) : Type := {
  of_int : Z -> F;            (* an int literal or an int used as a float *)
  fadd : F -> F -> F;
  fsub : F -> F -> F;
  fmul : F -> F -> F;
  fdiv : F -> F -> F;
  fneg : F -> F;
  fpow : F -> nat -> F;       (* x ** n *)
  np_exp : F -> F;
  np_sqrt : F -> F;
  to_int : F -> Z;            (* int(x): truncation toward zero *)
  fceil : F -> Z;             (* the ceiling used by np.arange for its length *)
  fgtb : F -> F -> bool;      (* x > y *)
  feqb : F -> F -> bool       (* x == y *)
}.

Declare Scope num_scope.
Delimit Scope num_scope with num.
Notation "x + y" := (fadd x y) : num_scope.
Notation "x - y" := (fsub x y) : num_scope.
Notation "x * y" := (fmul x y) : num_scope.
Notation "x / y" := (fdiv x y) : num_scope.
Notation "- x" := (fneg x) : num_scope.
Notation "x ^ n" := (fpow x n) : num_scope.
Notation "# z" := (of_int z) (at level 5, format "# z") : num_scope.

(** The spline object returned by [CubicSpline]: calling it evaluates the
    interpolant, [derivative(nu=1)] gives its first derivative. *)
Record YieldCurve (F : Type) : Type := {
  yc_call : F -> F;
  yc_derivative : F -> F
}.

Section Program.

Context {F : Type} `{Arith F}.

Local Open Scope py_scope.
Local Open Scope num_scope.

(** [np.zeros(n)]. *)
Definition np_zeros (n : Z) : result (list F) :=
  if (n <? 0)%Z then Raise ValueError else Ok (repeat #0 (Z.to_nat n)).

(** [np.sum(xs)], accumulated from the left. *)
Definition np_sum (xs : list F) : F := fold_left fadd xs #0.

(** [np.arange(start, stop, step)] on floats: the length is
    [ceil((stop - start)/step)]; the first entry is [start], the second
    [start + step], and entry [i >= 2] is [start + i*delta] with
    [delta = (start + step) - start].  A zero step divides by zero. *)
Definition np_arange (start stop step : F) : result (list F) :=
  if feqb step #0 then Raise ZeroDivisionError
  else
    let next := start + step in
    let delta := next - start in
    Ok (map (fun i => match i with
                      | O => start
                      | S O => next
                      | _ => start + #(Z.of_nat i) * delta
                      end)
            (seq 0 (Z.to_nat (fceil ((stop - start) / step))))).

(** Division of two Python floats: a zero divisor raises. *)
Definition py_div (x y : F) : result F :=
  if feqb y #0 then Raise ZeroDivisionError else Ok (x / y).

(** *** ShortRateSimulator *)

(** The drift rebuilt inside [simulate_path]:
    [lambda t: yield_curve.derivative(nu=1)(t) + (a*yield_curve(t))
               + ((sigma**2)/(2*a))*(1-np.exp(-2*a*t))]. *)
Definition theta_HW (a sigma : F) (yield_curve : YieldCurve F) (t : F)
  : result F :=
  q <- py_div (sigma ^ 2) (#2 * a) ;;
  Ok (yc_derivative yield_curve t + (a * yc_call yield_curve t)
      + q * (#1 - np_exp (#(-2) * a * t))).

(** The tuple handed to a worker. *)
Definition path_params : Type :=
  (Z * list F * Z * F * F * F * F * (F -> result F) * YieldCurve F)%type.

(** The shock vector [Z] of a worker's tuple. *)
Definition shocks_of (params : path_params) : list F :=
  let '(_, Zv, _, _, _, _, _, _, _) := params in Zv.

(** One iteration of the Euler loop on the pair of arrays [(dr, r)]. *)
Definition euler_step (Zv : list F) (dt a sigma : F) (theta : F -> result F)
    (t : Z) (st : list F * list F) : result (list F * list F) :=
  let '(dr, r) := st in
  th <- theta (#t * dt) ;;
  r_prev <- get_item r (t - 1) ;;
  z_t <- get_item Zv t ;;
  dr <- set_item dr t ((th - a * r_prev) * dt + sigma * np_sqrt dt * z_t) ;;
  r_prev <- get_item r (t - 1) ;;
  dr_t <- get_item dr t ;;
  r <- set_item r t (r_prev + dr_t) ;;
  Ok (dr, r).

Definition simulate_path (params : path_params) : result (list F) :=
  let '(_, Zv, steps, dt, r0, a, sigma, theta, yield_curve) := params in
  let theta := theta_HW a sigma yield_curve in
  dr <- np_zeros steps ;;
  r <- np_zeros steps ;;
  r <- set_item r 0 r0 ;;
  st <- for_each (py_range 1 steps) (euler_step Zv dt a sigma theta) (dr, r) ;;
  Ok (snd st).

(** [np.random.normal(0, 1, size=(rows, cols))]: the generator is the
    oracle [draw], which gives the variate at each position. *)
Definition np_random_normal (draw : nat -> nat -> F) (rows cols : Z)
  : result (list (list F)) :=
  if ((rows <? 0) || (cols <? 0))%Z then Raise ValueError
  else Ok (map (fun i => map (draw i) (seq 0 (Z.to_nat cols)))
               (seq 0 (Z.to_nat rows))).

(** The shock matrix: the drawn half stacked on its negation. *)
Definition antithetic_shocks (draw : nat -> nat -> F) (simulations steps : Z)
  : result (list (list F)) :=
  random_part_1 <- np_random_normal draw (Z.quot simulations 2) steps ;;
  let random_part_2 := map (map fneg) random_part_1 in
  Ok (random_part_1 ++ random_part_2).

(** [[(i, random_z[i,:], steps, ...) for i in range(simulations)]]. *)
Definition simulation_params (random_z : list (list F)) (simulations steps : Z)
    (dt r0 a sigma : F) (theta : F -> result F) (yield_curve : YieldCurve F)
  : result (list path_params) :=
  map_result
    (fun i => row <- get_item random_z i ;;
              Ok (i, row, steps, dt, r0, a, sigma, theta, yield_curve))
    (py_range 0 simulations).

(** [pool.map] gathers the workers' results in the order of the inputs. *)
Definition get_short_rates (draw : nat -> nat -> F) (simulations steps : Z)
    (dt r0 a sigma : F) (theta : F -> result F) (yield_curve : YieldCurve F)
  : result (list (list F)) :=
  random_z <- antithetic_shocks draw simulations steps ;;
  params <- simulation_params random_z simulations steps dt r0 a sigma theta
              yield_curve ;;
  map_result simulate_path params.

(** *** ForwardRateAggregator *)

(** The loop body of [get_forward_rates]:
    [np.sum(short_rate_paths[simulation, start_id:finish_id]*dt)] for the
    period starting at [t]; the path is indexed here, inside the loop. *)
Definition forward_rate (months_per_year dt tenor : F)
    (short_rate_paths : list (list F)) (simulation : Z) (t : F) : result F :=
  let start_id := to_int (months_per_year * t) in
  let finish_id := to_int (months_per_year * (t + tenor)) in
  path <- get_item short_rate_paths simulation ;;
  Ok (np_sum (map (fun x => x * dt) (slice path start_id finish_id))).

Definition forward_rates_row (months_per_year dt T_m tenor : F)
    (short_rate_paths : list (list F)) (simulation : Z) : result (list F) :=
  ts <- np_arange #0 T_m tenor ;;
  map_result (forward_rate months_per_year dt tenor short_rate_paths simulation)
             ts.

Definition get_forward_rates (simulations : Z) (months_per_year dt T_m tenor : F)
    (short_rate_paths : list (list F)) : result (list (list F)) :=
  map_result
    (forward_rates_row months_per_year dt T_m tenor short_rate_paths)
    (py_range 0 simulations).

(** The terms [r[k]*dt] of the steps [k] in [lo, hi), in ascending order; an
    index past the end of the path has no step and gives no term. *)
Definition step_terms (path : list F) (dt : F) (lo hi : nat) : list F :=
  flat_map (fun k => match nth_error path k with
                     | Some r_k => [r_k * dt]
                     | None => []
                     end)
           (seq lo (hi - lo)).

(** The exponent of the period starting at [t]: the sum of [r[k]*dt] over the
    steps [k] in [int(mpy*t), int(mpy*(t+tenor)))], the products and the
    truncations being the arithmetic's own. *)
Definition period_sum (months_per_year dt tenor : F) (path : list F) (t : F)
  : F :=
  np_sum (step_terms path dt
            (Z.to_nat (to_int (months_per_year * t)))
            (Z.to_nat (to_int (months_per_year * (t + tenor))))).

(** *** BondPricer *)

Definition B (s t a : F) : result F :=
  q <- py_div #1 a ;;
  Ok (q * (#1 - np_exp (a * (s - t)))).

Definition A (s t a sigma : F) (yield_curve : YieldCurve F) : result F :=
  let P_0_t := np_exp (- yc_call yield_curve t * t) in
  let P_0_s := np_exp (- yc_call yield_curve s * s) in
  let term1 := P_0_t / P_0_s in
  b <- B s t a ;;
  let term2 := b * yc_call yield_curve s in
  q <- py_div (sigma ^ 2) (#4 * a) ;;
  b' <- B s t a ;;
  let term3 := q * b' ^ 2 * (#1 - np_exp (#(-2) * a * s)) in
  Ok (term1 * np_exp (term2 - term3)).

Definition P (s t r_s a sigma : F) (yield_curve : YieldCurve F) : result F :=
  av <- A s t a sigma yield_curve ;;
  bv <- B s t a ;;
  Ok (av * np_exp (- bv * r_s)).

(** *** SwapValuator *)

(** The loop body of [V]: [term3 += P(t, T_i, rates[...], ...) * tenor]. *)
Definition V_accumulate (months_per_year t tenor : F) (rates : list F)
    (a sigma : F) (yield_curve : YieldCurve F) (T_i : F) (term3 : F)
  : result F :=
  r_t <- get_item rates (to_int (months_per_year * t)) ;;
  p <- P t T_i r_t a sigma yield_curve ;;
  Ok (term3 + p * tenor).

Definition V (months_per_year t T_0 T_m N fixed_rate tenor : F)
    (rates : list F) (a sigma : F) (yield_curve : YieldCurve F) : result F :=
  r_t <- get_item rates (to_int (months_per_year * t)) ;;
  term1 <- P t T_0 r_t a sigma yield_curve ;;
  r_t <- get_item rates (to_int (months_per_year * t)) ;;
  term2 <- P t T_m r_t a sigma yield_curve ;;
  dates <- np_arange (T_0 + tenor) (T_m + tenor) tenor ;;
  term3 <- for_each dates
             (V_accumulate months_per_year t tenor rates a sigma yield_curve)
             #0 ;;
  Ok (- N * (term1 - term2 - fixed_rate * term3)).

(** The tuple handed to a swap-valuation worker. *)
Definition swap_params : Type :=
  (Z * F * F * F * F * F * list F * YieldCurve F * F * F)%type.

Definition sim_swap_eval (params : swap_params) : result (list F) :=
  let '(_, months_per_year, T_m, tenor, N, fixed_rate, short_rate_path,
        yield_curve, a, sigma) := params in
  ts <- np_arange tenor T_m tenor ;;
  map_result
    (fun t => V months_per_year t t T_m N fixed_rate tenor short_rate_path
                a sigma yield_curve)
    ts.

Definition get_simulations_swap_values (simulations : Z)
    (months_per_year T_m tenor N fixed_rate : F)
    (short_rate_paths : list (list F)) (yield_curve : YieldCurve F)
    (a sigma : F) : result (list (list F)) :=
  params <- map_result
              (fun i => path <- get_item short_rate_paths i ;;
                        Ok (i, months_per_year, T_m, tenor, N, fixed_rate,
                            path, yield_curve, a, sigma))
              (py_range 0 simulations) ;;
  map_result sim_swap_eval params.

(** *** SwaptionMonteCarloEstimator *)

(** The loop body of [price_european_MC]: the entry appended for path [i]. *)
Definition discounted_payoff (swap_values : list F) (T_n : F)
    (forward_rates : list (list F)) (i : Z) : result F :=
  sv <- get_item swap_values i ;;
  if fgtb sv #0 then
    row <- get_item forward_rates i ;;
    let disc_rate := np_sum (slice_to row (to_int T_n + 1)) in
    sv' <- get_item swap_values i ;;
    Ok (sv' * np_exp (- disc_rate))
  else Ok #0.

Definition price_european_MC (swap_values : list F) (T_n : F)
    (forward_rates : list (list F)) : result F :=
  let n := Z.of_nat (length swap_values) in
  positive_swaps <- map_result
                      (discounted_payoff swap_values T_n forward_rates)
                      (py_range 0 n) ;;
  if (n =? 0)%Z then Raise ZeroDivisionError
  else Ok (fold_left fadd positive_swaps #0 / #n).

(** *** YieldCurve *)

(** [np.diff(x)]. *)
Fixpoint np_diff (x : list F) : list F :=
  match x with
  | x0 :: ((x1 :: _) as tl) => (x1 - x0) :: np_diff tl
  | _ => []
  end.

(** The spline constructor of the interpolation library.  The library is
    not part of the notebook; what is modelled here is its documented input
    check (at least two abscissae, as many ordinates, strictly increasing
    abscissae, each violation a [ValueError]), while the fitting itself is
    the parameter [fit]. *)
Definition CubicSpline (fit : list F -> list F -> YieldCurve F)
    (x y : list F) : result (YieldCurve F) :=
  if (length x <? 2)%nat then Raise ValueError
  else if negb (length x =? length y)%nat then Raise ValueError
  else if existsb (fun d => negb (fgtb d #0)) (np_diff x) then Raise ValueError
  else Ok (fit x y).

Definition create_yield_curve
    (spline : list F -> list F -> result (YieldCurve F))
    (yield_curve : list (F * F)) : result (YieldCurve F) :=
  let durations := map fst yield_curve in
  let yields := map snd yield_curve in
  spline durations yields.

(** *** The pricing cell *)

(** [np.array(rows)[:,0]]: the first entry of every row.  An empty list of
    rows makes a one-dimensional array, which has no second axis. *)
Definition column0 (rows : list (list F)) : result (list F) :=
  match rows with
  | [] => Raise IndexError
  | _ => map_result (fun row => get_item row 0) rows
  end.

(** The Monte Carlo value the last cell computes for one strike:
    [get_short_rates], [get_forward_rates], then
    [get_simulations_swap_values(...)[:,0]] and
    [price_european_MC(swap_values, tenor, forward_rate_normal)]. *)
Definition european_sim_value (draw : nat -> nat -> F) (simulations steps : Z)
    (months_per_year dt r0 a sigma : F) (theta : F -> result F)
    (yield_curve : YieldCurve F) (T_m tenor N strike_rate : F) : result F :=
  normal_rates <- get_short_rates draw simulations steps dt r0 a sigma theta
                    yield_curve ;;
  forward_rate_normal <- get_forward_rates simulations months_per_year dt T_m
                           tenor normal_rates ;;
  values <- get_simulations_swap_values simulations months_per_year T_m tenor
              N strike_rate normal_rates yield_curve a sigma ;;
  swap_values <- column0 values ;;
  price_european_MC swap_values tenor forward_rate_normal.

End Program.

(** ** The instance over the real numbers *)

(** [int(x)] on a real: the integer part toward zero. *)
Definition Rtrunc (x : R) : Z :=
  if Rle_dec 0 x then Int_part x else (- Int_part (- x))%Z.

(** The least integer not below [x]. *)
Definition Rceil (x : R) : Z := (- Int_part (- x))%Z.

#[export] Instance R_arith : Arith R := {|
  of_int := IZR;
  fadd := Rplus;
  fsub := Rminus;
  fmul := Rmult;
  fdiv := Rdiv;
  fneg := Ropp;
  fpow := pow;
  np_exp := exp;
  np_sqrt := sqrt;
  to_int := Rtrunc;
  fceil := Rceil;
  fgtb := fun x y => if Rlt_dec y x then true else false;
  feqb := fun x y => if Req_dec_T x y then true else false
|}.

(** ** The instance over binary64 floats *)

(** [int(x)] on a finite float: the value m·2^e truncated toward zero. *)
Definition b64_trunc (x : float) : Z :=
  match Prim2SF x with
  | S754_finite s m e =>
      let v := match e with
               | Zneg p => Z.shiftr (Zpos m) (Zpos p)
               | _ => Z.shiftl (Zpos m) e
               end in
      if s then Z.opp v else v
  | _ => 0%Z
  end.

(** The ceiling of a finite float as an integer. *)
Definition b64_ceil (x : float) : Z :=
  match Prim2SF x with
  | S754_finite s m e =>
      match e with
      | Zneg p =>
          if s then Z.opp (Z.shiftr (Zpos m) (Zpos p))
          else Z.opp (Z.shiftr (Z.opp (Zpos m)) (Zpos p))
      | _ => let v := Z.shiftl (Zpos m) e in if s then Z.opp v else v
      end
  | _ => 0%Z
  end.

(** An int used as a float (exact below 2^53). *)
Definition b64_of_Z (z : Z) : float :=
  match z with
  | Z0 => PrimFloat.zero
  | Zpos _ => PrimFloat.of_uint63 (Uint63.of_Z z)
  | Zneg p => PrimFloat.opp (PrimFloat.of_uint63 (Uint63.of_Z (Zpos p)))
  end.

Fixpoint b64_pow (x : float) (n : nat) : float :=
  match n with
  | O => PrimFloat.one
  | S O => x
  | S n' => PrimFloat.mul x (b64_pow x n')
  end.

(** The IEEE operations are the kernel's; the exponential of the C library
    is the parameter [libm_exp]. *)
Definition B64_arith (libm_exp : float -> float) : Arith float := {|
  of_int := b64_of_Z;
  fadd := PrimFloat.add;
  fsub := PrimFloat.sub;
  fmul := PrimFloat.mul;
  fdiv := PrimFloat.div;
  fneg := PrimFloat.opp;
  fpow := b64_pow;
  np_exp := libm_exp;
  np_sqrt := PrimFloat.sqrt;
  to_int := b64_trunc;
  fceil := b64_ceil;
  fgtb := fun x y => PrimFloat.ltb y x;
  feqb := PrimFloat.eqb
|}.

(** ** The formulas of the specification, over the reals *)

Local Open Scope R_scope.

Definition Rsum (l : list R) : R := fold_right Rplus 0 l.

(** θ(t) = y'(t) + a·y(t) + (σ²/2a)·(1 − e^(−2at)). *)
Definition spec_theta (y : YieldCurve R) (a sigma t : R) : R :=
  yc_derivative y t + a * yc_call y t
  + (sigma ^ 2 / (2 * a)) * (1 - exp (- (2 * a * t))).

(** P(0,x) = e^(−y(x)·x). *)
Definition spec_P0 (y : YieldCurve R) (x : R) : R :=
  exp (- (yc_call y x * x)).

(** B(s,t) = (1/a)·(1 − e^(a(s−t))). *)
Definition spec_B (a s t : R) : R :=
  (1 / a) * (1 - exp (a * (s - t))).

(** A(s,t) = [P(0,t)/P(0,s)]·exp(B(s,t)·y(s) − (σ²/4a)·B(s,t)²·(1 − e^(−2as))). *)
Definition spec_A (y : YieldCurve R) (a sigma s t : R) : R :=
  (spec_P0 y t / spec_P0 y s)
  * exp (spec_B a s t * yc_call y s
         - (sigma ^ 2 / (4 * a)) * (spec_B a s t) ^ 2
           * (1 - exp (- (2 * a * s)))).

(** P(s,t) = A(s,t)·exp(−B(s,t)·r_s). *)
Definition spec_bond (y : YieldCurve R) (a sigma s t r_s : R) : R :=
  spec_A y a sigma s t * exp (- (spec_B a s t * r_s)).

(** The fixed-leg annuity Σ P(t,T_i)·τ over a list of payment dates. *)
Definition spec_annuity (y : YieldCurve R) (a sigma t tau r_t : R)
    (dates : list R) : R :=
  Rsum (map (fun T_i => spec_bond y a sigma t T_i r_t * tau) dates).

(** The payment dates [np.arange(T_0+tenor, T_m+tenor, tenor)]. *)
Definition payment_dates (T_0 T_m tau : R) : list R :=
  map (fun i => T_0 + tau + INR i * tau)
      (seq 0 (Z.to_nat (Rceil ((T_m + tau - (T_0 + tau)) / tau)))).

(** The step index [⌊x⌋] of a non-negative time. *)
Definition floor_index (x : R) : nat := Z.to_nat (Int_part x).

(** Σ row[0..e], the exponents of the periods up to exercise index [e]. *)
Definition exponent_sum (row : list R) (e : nat) : R :=
  Rsum (firstn (S e) row).

(** The mean over all paths of max(swapValue, 0)·exp(−Σ exponents[0..e]). *)
Definition mc_estimate (e : nat) (swap_values : list R)
    (forward_rates : list (list R)) : R :=
  Rsum (map (fun i => Rmax (nth i swap_values 0) 0
                      * exp (- exponent_sum (nth i forward_rates []) e))
            (seq 0 (length swap_values)))
  / INR (length swap_values).

(** Strictly increasing abscissae. *)
Fixpoint increasing (l : list R) : Prop :=
  match l with
  | x0 :: ((x1 :: _) as tl) => x0 < x1 /\ increasing tl
  | _ => True
  end.


(** ** Concrete inputs *)

(** The flat 4% curve of the notebook, as a spline object. *)
Definition flat_curve : YieldCurve R :=
  {| yc_call := fun _ => 4 / 100; yc_derivative := fun _ => 0 |}.

(** A drift argument that always fails, and one that is constant. *)
Definition theta_fail : R -> result R := fun _ => Raise ValueError.
Definition theta_const : R -> result R := fun _ => Ok 0.

(** A short-rate path of thirteen monthly steps at 4%. *)
Definition rates13 : list R := repeat (4 / 100) 13.

(** A fitting routine that returns the flat curve. *)
Definition fit_flat : list R -> list R -> YieldCurve R :=
  fun _ _ => flat_curve.

(** One path worth 1 at exercise, with two period exponents of 1. *)
Definition one_swap_value : list R := [1].
Definition two_period_exponents : list (list R) := [[1; 1]].

(** Two paths out of the money, and a pair whose second path is in the
    money. *)
Definition non_positive_values : list R := [0; -1].
Definition mixed_swap_values : list R := [-1; 1].

(** The points of the notebook's flat curve. *)
Definition flat_yields : list (R * R) :=
  [(1 / 2, 4 / 100); (2, 4 / 100); (5, 4 / 100); (10, 4 / 100)].

(** The period starts [np.arange(0.0, 1, 1/2)] in exact arithmetic. *)
Definition half_year_starts : list R :=
  [0 + INR 0 * (1 / 2); 0 + INR 1 * (1 / 2)].

(** The candidate exercise dates [np.arange(0.5, 1.0, 0.5)]. *)
Definition half_year_exercise_dates : list R := [1 / 2 + INR 0 * (1 / 2)].

(** A curve with a single point, and one with decreasing maturities. *)
Definition single_point : list (R * R) := [(1, 4 / 100)].
Definition decreasing_points : list (R * R) := [(2, 4 / 100); (1, 4 / 100)].

(** A shock sequence for three steps. *)
Definition shocks3 : list R := [0; 1; -1].

(** A generator that returns the column number at every draw. *)
Definition draw_cols : nat -> nat -> R := fun _ j => INR j.

Local Close Scope R_scope.

(** ** Indexing lemmas *)

Section IndexFacts.

Context {A : Type}.

Lemma resolve_index_nat (len k : nat) :
  (k < len)%nat -> resolve_index len (Z.of_nat k) = Some k.
Proof.
  intros Hk. unfold resolve_index.
  destruct (Z.ltb_spec (Z.of_nat k) 0) as [Hn | _]; [lia |].
  destruct (Z.leb_spec 0 (Z.of_nat k)) as [_ | Hn]; [| lia].
  destruct (Z.ltb_spec (Z.of_nat k) (Z.of_nat len)) as [_ | Hn]; [| lia].
  simpl. now rewrite Nat2Z.id.
Qed.

Lemma resolve_index_out (len : nat) (i : Z) :
  (Z.of_nat len <= i)%Z -> resolve_index len i = None.
Proof.
  intros Hi. unfold resolve_index.
  destruct (Z.ltb_spec i 0) as [Hn | _]; [lia |].
  destruct (Z.ltb_spec i (Z.of_nat len)) as [Hn | _]; [lia |].
  now rewrite andb_false_r.
Qed.

Lemma get_item_nat (l : list A) (k : nat) (x : A) :
  nth_error l k = Some x -> get_item l (Z.of_nat k) = Ok x.
Proof.
  intros Hx. unfold get_item.
  rewrite resolve_index_nat by (apply nth_error_Some; congruence).
  now rewrite Hx.
Qed.

Lemma get_item_out (l : list A) (i : Z) :
  (Z.of_nat (length l) <= i)%Z -> get_item l i = Raise IndexError.
Proof.
  intros Hi. unfold get_item. now rewrite resolve_index_out.
Qed.

Lemma set_item_nat (l : list A) (k : nat) (v : A) :
  (k < length l)%nat -> set_item l (Z.of_nat k) v = Ok (update l k v).
Proof.
  intros Hk. unfold set_item. now rewrite resolve_index_nat.
Qed.

Lemma update_length (l : list A) (k : nat) (v : A) :
  length (update l k v) = length l.
Proof.
  revert k. induction l as [| x l IH]; intros [| k]; simpl; auto.
Qed.

Lemma nth_error_update_eq (l : list A) (k : nat) (v : A) :
  (k < length l)%nat -> nth_error (update l k v) k = Some v.
Proof.
  revert k. induction l as [| x l IH]; intros [| k] Hk; simpl in *;
    try lia; auto.
  apply IH. lia.
Qed.

Lemma nth_error_update_neq (l : list A) (k j : nat) (v : A) :
  j <> k -> nth_error (update l k v) j = nth_error l j.
Proof.
  revert k j. induction l as [| x l IH]; intros [| k] [| j] Hjk; simpl;
    try congruence; auto.
Qed.

End IndexFacts.

(** Python indexing and slicing on small lists. *)

Example get_item_last : get_item [10; 20; 30]%nat (-1) = Ok 30%nat.
Proof. reflexivity. Qed.

Example get_item_past_end : get_item [10; 20; 30]%nat 3 = Raise IndexError.
Proof. reflexivity. Qed.

Example slice_is_clipped : slice [10; 20; 30]%nat 1 7 = [20; 30]%nat.
Proof. reflexivity. Qed.

Example slice_to_negative : slice_to [10; 20; 30]%nat (-1) = [10; 20]%nat.
Proof. reflexivity. Qed.

Example py_range_1_4 : py_range 1 4 = [1; 2; 3]%Z.
Proof. reflexivity. Qed.

(** ** Loop lemmas *)

(** A loop over consecutive indices maintains an invariant indexed by the
    number of the next iteration. *)
Lemma for_each_invariant (S : Type) (g : nat -> Z)
    (body : Z -> S -> result S) (Inv : nat -> S -> Prop) :
  forall (len lo : nat) (s : S),
    Inv lo s ->
    (forall j st, (lo <= j < lo + len)%nat -> Inv j st ->
                  exists st', body (g j) st = Ok st' /\ Inv (Datatypes.S j) st') ->
    exists s', for_each (map g (seq lo len)) body s = Ok s'
               /\ Inv (lo + len)%nat s'.
Proof.
  induction len as [| len IH]; intros lo s Hinv Hstep; simpl.
  - exists s. split; [reflexivity |]. now rewrite Nat.add_0_r.
  - destruct (Hstep lo s) as (st' & Hbody & Hinv'); [lia | assumption |].
    rewrite Hbody.
    destruct (IH (Datatypes.S lo) st') as (s' & Hrun & Hfin).
    + assumption.
    + intros j st Hj. apply Hstep. lia.
    + exists s'. split; [assumption |].
      now replace (lo + Datatypes.S len)%nat with (Datatypes.S lo + len)%nat by lia.
Qed.

Lemma map_result_ext (A B : Type) (f g : A -> result B) (xs : list A) :
  (forall x, In x xs -> f x = g x) -> map_result f xs = map_result g xs.
Proof.
  induction xs as [| x xs IH]; intros Hfg; simpl; [reflexivity |].
  rewrite (Hfg x) by (now left).
  rewrite IH by (intros y Hy; apply Hfg; now right).
  reflexivity.
Qed.

Lemma map_result_total (A B : Type) (f : A -> result B) (g : A -> B)
    (xs : list A) :
  (forall x, In x xs -> f x = Ok (g x)) -> map_result f xs = Ok (map g xs).
Proof.
  induction xs as [| x xs IH]; intros Hfg; simpl; [reflexivity |].
  rewrite (Hfg x) by (now left).
  rewrite IH by (intros y Hy; apply Hfg; now right).
  reflexivity.
Qed.

Lemma map_result_raise (A B : Type) (f : A -> result B) (g : A -> B)
    (xs ys : list A) (x : A) (e : pyexn) :
  (forall y, In y xs -> f y = Ok (g y)) -> f x = Raise e ->
  map_result f (xs ++ x :: ys) = Raise e.
Proof.
  induction xs as [| y xs IH]; intros Hfg Hx; simpl.
  - now rewrite Hx.
  - rewrite (Hfg y) by (now left).
    rewrite IH; auto. intros z Hz. apply Hfg. now right.
Qed.

(** ** The Euler loop, for every arithmetic *)

Section EulerLoop.

Context {F : Type} `{Arith F}.

Local Open Scope num_scope.

Variables (Zv : list F) (dt r0 a sigma q : F) (yield_curve : YieldCurve F).
Variable n : nat.

(** The drift once the quotient [q = sigma**2 / (2*a)] has been formed. *)
Let drift (t : F) : F :=
  yc_derivative yield_curve t + (a * yc_call yield_curve t)
  + q * (#1 - np_exp (#(-2) * a * t)).

(** The value the loop stores in [r[k]] given [r[k-1]] and [Z[k]]. *)
Let next (k : nat) (r_prev z_k : F) : F :=
  r_prev + ((drift (#(Z.of_nat k) * dt) - a * r_prev) * dt
            + sigma * np_sqrt dt * z_k).

(** The state of the arrays when iteration [j] is about to run. *)
Let euler_inv (j : nat) (st : list F * list F) : Prop :=
  length (fst st) = n /\ length (snd st) = n /\
  nth_error (snd st) 0 = Some r0 /\
  forall k, (1 <= k < j)%nat ->
    exists r_prev z_k,
      nth_error (snd st) (k - 1) = Some r_prev /\
      nth_error Zv k = Some z_k /\
      nth_error (snd st) k = Some (next k r_prev z_k).

Hypothesis Hq : py_div (sigma ^ 2) (#2 * a) = Ok q.
Hypothesis HZ : (n <= length Zv)%nat.

Lemma theta_HW_drift (t : F) : theta_HW a sigma yield_curve t = Ok (drift t).
Proof. unfold theta_HW. rewrite Hq. reflexivity. Qed.

Lemma euler_step_inv (j : nat) (st : list F * list F) :
  (1 <= j < n)%nat -> euler_inv j st ->
  exists st',
    euler_step Zv dt a sigma (theta_HW a sigma yield_curve) (Z.of_nat j) st
    = Ok st' /\ euler_inv (S j) st'.
Proof.
  intros Hj (Hdr & Hr & H0 & Hrec). destruct st as [dr r].
  cbn [fst snd] in Hdr, Hr, H0, Hrec.
  destruct (nth_error r (j - 1)) as [r_prev |] eqn:Hprev;
    [| apply nth_error_None in Hprev; lia].
  destruct (nth_error Zv j) as [z_j |] eqn:Hz;
    [| apply nth_error_None in Hz; lia].
  exists (update dr j ((drift (#(Z.of_nat j) * dt) - a * r_prev) * dt
                       + sigma * np_sqrt dt * z_j),
          update r j (next j r_prev z_j)).
  split.
  - unfold euler_step. rewrite theta_HW_drift. cbn [bind].
    replace (Z.of_nat j - 1)%Z with (Z.of_nat (j - 1)) by lia.
    rewrite (get_item_nat _ _ Hprev). cbn [bind].
    rewrite (get_item_nat _ _ Hz). cbn [bind].
    rewrite set_item_nat by lia. cbn [bind].
    rewrite (get_item_nat (update dr j _) j (x := _))
      by (apply nth_error_update_eq; lia).
    cbn [bind]. rewrite set_item_nat by lia. reflexivity.
  - unfold euler_inv. cbn [fst snd]. rewrite !update_length.
    repeat split; try assumption.
    + rewrite nth_error_update_neq by lia. assumption.
    + intros k Hk. destruct (Nat.eq_dec k j) as [-> | Hne].
      * exists r_prev, z_j. rewrite nth_error_update_neq by lia.
        rewrite nth_error_update_eq by lia. auto.
      * destruct (Hrec k) as (rp & zk & Hp & Hzk & Hk'); [lia |].
        exists rp, zk. rewrite !nth_error_update_neq by lia. auto.
Qed.

(** [simulate_path] returns an array of [n] rates that starts at [r0] and
    obeys the Euler recurrence at every later index. *)
Lemma simulate_path_euler (i : Z) (theta : F -> result F) :
  (1 <= n)%nat ->
  exists r,
    simulate_path (i, Zv, Z.of_nat n, dt, r0, a, sigma, theta, yield_curve)
    = Ok r /\
    length r = n /\
    nth_error r 0 = Some r0 /\
    forall k, (1 <= k < n)%nat ->
      exists r_prev z_k,
        nth_error r (k - 1) = Some r_prev /\
        nth_error Zv k = Some z_k /\
        nth_error r k = Some (next k r_prev z_k).
Proof.
  intros Hn. unfold simulate_path, np_zeros.
  destruct (Z.ltb_spec (Z.of_nat n) 0) as [Hneg | _]; [lia |].
  rewrite Nat2Z.id. cbn [bind].
  rewrite (set_item_nat (repeat #0 n) r0 (k := 0))
    by (rewrite repeat_length; lia).
  cbn [bind].
  unfold py_range.
  replace (Z.to_nat (Z.of_nat n - 1)) with (n - 1)%nat by lia.
  destruct (@for_each_invariant _
              (fun j => (1 + Z.of_nat j)%Z)
              (euler_step Zv dt a sigma (theta_HW a sigma yield_curve))
              (fun j => euler_inv (S j))
              (n - 1) 0
              (repeat #0 n, update (repeat #0 n) 0 r0))
    as (st & Hrun & Hlen & Hlen' & H0 & Hrec).
  - unfold euler_inv. cbn [fst snd]. rewrite update_length, !repeat_length.
    repeat split; try reflexivity.
    + apply nth_error_update_eq. rewrite repeat_length. lia.
    + intros k Hk. lia.
  - intros j st Hj Hinv.
    replace (1 + Z.of_nat j)%Z with (Z.of_nat (S j)) by lia.
    apply euler_step_inv; [lia | assumption].
  - rewrite Hrun. cbn [bind]. exists (snd st).
    repeat split; try assumption.
    intros k Hk. apply Hrec. lia.
Qed.

End EulerLoop.

(** ** Facts about the real instance *)

Local Open Scope R_scope.

Lemma py_div_R (x y : R) : y <> 0 -> py_div x y = Ok (x / y).
Proof.
  intros Hy. unfold py_div. cbn [feqb of_int R_arith fdiv].
  destruct (Req_dec_T y 0) as [Heq | _]; [contradiction | reflexivity].
Qed.

Lemma theta_HW_R (y : YieldCurve R) (a sigma t : R) :
  a <> 0 -> theta_HW a sigma y t = Ok (spec_theta y a sigma t).
Proof.
  intros Ha. unfold theta_HW. cbn [fmul fpow of_int R_arith].
  rewrite py_div_R by lra. cbn [bind fadd fmul fsub np_exp of_int R_arith].
  unfold spec_theta. do 5 f_equal. ring.
Qed.

(** A path of a single step is the initial rate; the drift is not
    evaluated, so even a = 0 raises nothing. *)
Example simulate_path_one_step (dt r0 sigma : R) :
  simulate_path (0%Z, [], 1%Z, dt, r0, 0, sigma, theta_fail, flat_curve)
  = Ok [r0].
Proof. reflexivity. Qed.

(** With a = 0 the drift divides by zero at the first Euler step. *)
Lemma simulate_path_singular (Zv : list R) (dt r0 sigma : R) :
  simulate_path (0%Z, Zv, 2%Z, dt, r0, 0, sigma, theta_const, flat_curve)
  = Raise ZeroDivisionError.
Proof.
  unfold simulate_path. cbn -[euler_step]. unfold euler_step, theta_HW, py_div.
  cbn [feqb fmul of_int R_arith].
  destruct (Req_dec_T (2 * 0) 0) as [_ | Hne]; [reflexivity | lra].
Qed.

Example antithetic_shocks_2_by_2 :
  antithetic_shocks draw_cols 2 2 = Ok [[INR 0; INR 1]; [- INR 0; - INR 1]].
Proof. reflexivity. Qed.

Example get_short_rates_empty (dt r0 a sigma : R) :
  get_short_rates draw_cols 0 12 dt r0 a sigma theta_fail flat_curve = Ok [].
Proof. reflexivity. Qed.

(** C1. For steps >= 1, a <> 0 and a shock sequence with an entry per step,
    [simulate_path] returns a path [r] of [steps] rates with [r[0] = r0] and,
    for every [k] from 1 to [steps - 1],
    [r[k] = r[k-1] + (θ(k·dt) − a·r[k-1])·dt + σ·√dt·Z[k]], θ being the
    Hull-White drift of the yield curve. *)
Theorem simulate_path_recurrence
    (i : Z) (Zv : list R) (steps : nat) (dt r0 a sigma : R)
    (theta : R -> result R) (y : YieldCurve R) :
  a <> 0 -> (1 <= steps)%nat -> (steps <= length Zv)%nat ->
  exists r,
    simulate_path (i, Zv, Z.of_nat steps, dt, r0, a, sigma, theta, y) = Ok r /\
    length r = steps /\
    nth_error r 0 = Some r0 /\
    forall k, (1 <= k < steps)%nat ->
      exists r_prev z_k,
        nth_error r (k - 1) = Some r_prev /\
        nth_error Zv k = Some z_k /\
        nth_error r k
        = Some (r_prev + (spec_theta y a sigma (INR k * dt) - a * r_prev) * dt
                + sigma * sqrt dt * z_k).
Proof.
  intros Ha Hsteps HZ.
  assert (Hq : py_div (fpow sigma 2) (fmul (of_int 2) a)
               = Ok (sigma ^ 2 / (2 * a))).
  { cbn [fpow fmul of_int R_arith]. apply py_div_R. lra. }
  destruct (@simulate_path_euler R R_arith Zv dt r0 a sigma _ y steps Hq HZ
              i theta Hsteps) as (r & Hrun & Hlen & H0 & Hrec).
  exists r. repeat split; try assumption.
  intros k Hk. destruct (Hrec k Hk) as (r_prev & z_k & Hp & Hz & Hr).
  exists r_prev, z_k. repeat split; try assumption.
  rewrite Hr. f_equal.
  cbn [fadd fsub fmul fdiv fpow np_exp np_sqrt of_int R_arith].
  unfold spec_theta. rewrite INR_IZR_INZ.
  replace (-2 * a * (IZR (Z.of_nat k) * dt))
    with (- (2 * a * (IZR (Z.of_nat k) * dt))) by ring.
  ring.
Qed.

Lemma simulate_path_recurrence_witness :
  (1 <> 0) /\ (1 <= 3)%nat /\ (3 <= length shocks3)%nat /\
  exists r,
    simulate_path (0%Z, shocks3, Z.of_nat 3, 1 / 12, 4 / 100, 1, 1 / 100,
                   theta_fail, flat_curve) = Ok r /\
    length r = 3%nat /\
    nth_error r 0 = Some (4 / 100) /\
    forall k, (1 <= k < 3)%nat ->
      exists r_prev z_k,
        nth_error r (k - 1) = Some r_prev /\
        nth_error shocks3 k = Some z_k /\
        nth_error r k
        = Some (r_prev
                + (spec_theta flat_curve 1 (1 / 100) (INR k * (1 / 12))
                   - 1 * r_prev) * (1 / 12)
                + 1 / 100 * sqrt (1 / 12) * z_k).
Proof.
  split; [lra |]. split; [lia |]. split; [simpl; lia |].
  apply (@simulate_path_recurrence 0%Z shocks3 3 (1 / 12) (4 / 100) 1
           (1 / 100) theta_fail flat_curve); [lra | lia | simpl; lia].
Defined.

(** ** The affine bond formula *)

Lemma B_R (a s t : R) : a <> 0 -> B s t a = Ok (spec_B a s t).
Proof.
  intros Ha. unfold B. cbn [of_int R_arith]. rewrite py_div_R by assumption.
  reflexivity.
Qed.

Lemma A_R (y : YieldCurve R) (a sigma s t : R) :
  a <> 0 -> A s t a sigma y = Ok (spec_A y a sigma s t).
Proof.
  intros Ha. unfold A. rewrite !B_R by assumption. cbn [bind].
  cbn [fmul fpow of_int R_arith]. rewrite py_div_R by lra.
  cbn [bind fadd fsub fmul fdiv fneg fpow np_exp of_int R_arith].
  unfold spec_A, spec_P0. f_equal. f_equal.
  - f_equal; f_equal; ring.
  - f_equal. f_equal. f_equal. f_equal. f_equal. ring.
Qed.

Lemma P_R (y : YieldCurve R) (a sigma s t r_s : R) :
  a <> 0 -> P s t r_s a sigma y = Ok (spec_bond y a sigma s t r_s).
Proof.
  intros Ha. unfold P. rewrite A_R, B_R by assumption.
  cbn [bind fmul fneg np_exp R_arith]. unfold spec_bond.
  do 3 f_equal. ring.
Qed.

Lemma spec_bond_pos (y : YieldCurve R) (a sigma s t r_s : R) :
  0 < spec_bond y a sigma s t r_s.
Proof.
  unfold spec_bond, spec_A, spec_P0.
  apply Rmult_lt_0_compat; [apply Rmult_lt_0_compat |]; try apply exp_pos.
  apply Rdiv_lt_0_compat; apply exp_pos.
Qed.

(** C2. For a <> 0 the bond pricer returns A(s,t)·exp(−B(s,t)·r_s) with
    B(s,t) = (1/a)(1 − e^(a(s−t))) and
    A(s,t) = [P(0,t)/P(0,s)]·exp(B·y(s) − (σ²/4a)·B²·(1 − e^(−2as))),
    P(0,x) = e^(−y(x)·x). *)
Theorem P_affine_decomposition (y : YieldCurve R) (a sigma s t r_s : R) :
  a <> 0 ->
  P s t r_s a sigma y
  = Ok (((exp (- (yc_call y t * t)) / exp (- (yc_call y s * s)))
         * exp ((1 / a) * (1 - exp (a * (s - t))) * yc_call y s
                - (sigma ^ 2 / (4 * a))
                  * ((1 / a) * (1 - exp (a * (s - t)))) ^ 2
                  * (1 - exp (- (2 * a * s)))))
        * exp (- ((1 / a) * (1 - exp (a * (s - t))) * r_s))).
Proof.
  intros Ha. rewrite P_R by assumption. reflexivity.
Qed.

Lemma P_affine_decomposition_witness :
  (1 / 100 <> 0) /\
  P 1 2 (4 / 100) (1 / 100) (1 / 100) flat_curve
  = Ok (((exp (- (4 / 100 * 2)) / exp (- (4 / 100 * 1)))
         * exp ((1 / (1 / 100)) * (1 - exp (1 / 100 * (1 - 2))) * (4 / 100)
                - ((1 / 100) ^ 2 / (4 * (1 / 100)))
                  * ((1 / (1 / 100)) * (1 - exp (1 / 100 * (1 - 2)))) ^ 2
                  * (1 - exp (- (2 * (1 / 100) * 1)))))
        * exp (- ((1 / (1 / 100)) * (1 - exp (1 / 100 * (1 - 2)))
                  * (4 / 100)))).
Proof.
  split; [lra |].
  apply (@P_affine_decomposition flat_curve (1 / 100) (1 / 100) 1 2 (4 / 100)).
  lra.
Defined.

(** ** Integer parts and [np.arange] over the reals *)

Lemma Int_part_IZR (z : Z) : Int_part (IZR z) = z.
Proof. symmetry. apply Int_part_spec. lra. Qed.

Lemma Int_part_nonneg (x : R) : 0 <= x -> (0 <= Int_part x)%Z.
Proof.
  intros Hx. destruct (base_Int_part x) as [_ Hlow].
  assert (Hlt : IZR (-1) < IZR (Int_part x)) by lra.
  apply lt_IZR in Hlt. lia.
Qed.

Lemma Int_part_le (x y : R) : x <= y -> (Int_part x <= Int_part y)%Z.
Proof.
  intros Hxy.
  destruct (base_Int_part x) as [Hx1 Hx2], (base_Int_part y) as [Hy1 Hy2].
  assert (Hlt : IZR (Int_part x) < IZR (Int_part y + 1)).
  { rewrite plus_IZR. lra. }
  apply lt_IZR in Hlt. lia.
Qed.

Lemma Rtrunc_nonneg (x : R) : 0 <= x -> Rtrunc x = Int_part x.
Proof.
  intros Hx. unfold Rtrunc. destruct (Rle_dec 0 x); [reflexivity | contradiction].
Qed.

Lemma Rceil_IZR (z : Z) : Rceil (IZR z) = z.
Proof. unfold Rceil. rewrite <- opp_IZR, Int_part_IZR. lia. Qed.

(** The ceiling is the least integer not below its argument. *)
Lemma Rceil_bounds (x : R) : IZR (Rceil x) - 1 < x <= IZR (Rceil x).
Proof.
  unfold Rceil. rewrite opp_IZR.
  destruct (base_Int_part (- x)) as [H1 H2]. lra.
Qed.

Lemma Rceil_gt_iff (x : R) (i : nat) :
  (i < Z.to_nat (Rceil x))%nat <-> INR i < x.
Proof.
  destruct (Rceil_bounds x) as [Hlo Hhi]. rewrite INR_IZR_INZ. split.
  - intros Hi. assert (Hz : (Z.of_nat i <= Rceil x - 1)%Z) by lia.
    apply IZR_le in Hz. rewrite minus_IZR in Hz. lra.
  - intros Hi. assert (Hz : IZR (Z.of_nat i) < IZR (Rceil x)) by lra.
    apply lt_IZR in Hz. lia.
Qed.

Lemma np_arange_R (start stop step : R) :
  step <> 0 ->
  np_arange start stop step
  = Ok (map (fun i => start + INR i * step)
            (seq 0 (Z.to_nat (Rceil ((stop - start) / step))))).
Proof.
  intros Hstep. unfold np_arange. cbn [feqb of_int R_arith].
  destruct (Req_dec_T step 0) as [Heq | _]; [contradiction |].
  cbn [fadd fsub fmul fdiv fceil of_int R_arith]. f_equal.
  apply map_ext. intros [| [| i]].
  - simpl. ring.
  - simpl. ring.
  - rewrite INR_IZR_INZ. ring.
Qed.

Lemma get_item_floor (rates : list R) (x r_t : R) :
  0 <= x ->
  nth_error rates (Z.to_nat (Int_part x)) = Some r_t ->
  get_item rates (Rtrunc x) = Ok r_t.
Proof.
  intros Hx Hnth. rewrite Rtrunc_nonneg by assumption.
  rewrite <- (Z2Nat.id (Int_part x)) by (now apply Int_part_nonneg).
  now apply get_item_nat.
Qed.

(** ** Sums *)

Lemma fold_left_Rplus (l : list R) (acc : R) :
  fold_left Rplus l acc = acc + Rsum l.
Proof.
  revert acc. induction l as [| x l IH]; intros acc; simpl.
  - ring.
  - rewrite IH. ring.
Qed.

Lemma np_sum_R (l : list R) : np_sum l = Rsum l.
Proof.
  unfold np_sum. cbn [fadd of_int R_arith]. rewrite fold_left_Rplus. ring.
Qed.

Lemma Rsum_pos (l : list R) :
  l <> [] -> (forall x, In x l -> 0 < x) -> 0 < Rsum l.
Proof.
  induction l as [| x l IH]; intros Hne Hpos; [congruence |].
  simpl. destruct l as [| x' l'].
  - simpl. specialize (Hpos x (or_introl eq_refl)). lra.
  - assert (0 < x) by (apply Hpos; now left).
    assert (0 < Rsum (x' :: l')).
    { apply IH; [congruence |]. intros z Hz. apply Hpos. now right. }
    lra.
Qed.

(** ** The swap value *)

Lemma V_accumulate_loop (y : YieldCurve R) (mpy t tau a sigma r_t : R)
    (rates dates : list R) (acc : R) :
  a <> 0 ->
  get_item rates (Rtrunc (mpy * t)) = Ok r_t ->
  for_each dates (V_accumulate mpy t tau rates a sigma y) acc
  = Ok (acc + spec_annuity y a sigma t tau r_t dates).
Proof.
  intros Ha Hrate. revert acc.
  induction dates as [| T_i dates IH]; intros acc; simpl.
  - unfold spec_annuity. simpl. f_equal. ring.
  - unfold V_accumulate at 1. cbn [to_int fmul R_arith]. rewrite Hrate.
    cbn [bind]. rewrite P_R by assumption. cbn [bind fadd fmul R_arith].
    rewrite IH. unfold spec_annuity. simpl. f_equal. ring.
Qed.

Lemma V_R (y : YieldCurve R) (mpy t T_0 T_m N K tau a sigma r_t : R)
    (rates : list R) :
  a <> 0 -> tau <> 0 ->
  get_item rates (Rtrunc (mpy * t)) = Ok r_t ->
  V mpy t T_0 T_m N K tau rates a sigma y
  = Ok (- N * (spec_bond y a sigma t T_0 r_t - spec_bond y a sigma t T_m r_t
               - K * spec_annuity y a sigma t tau r_t
                       (payment_dates T_0 T_m tau))).
Proof.
  intros Ha Htau Hrate. unfold V. cbn [to_int fmul fadd R_arith].
  rewrite Hrate. cbn [bind]. rewrite !P_R by assumption. cbn [bind].
  rewrite np_arange_R by assumption. cbn [bind].
  rewrite V_accumulate_loop with (r_t := r_t) by assumption. cbn [bind].
  cbn [fneg fmul fsub of_int R_arith]. unfold payment_dates.
  f_equal. ring.
Qed.

Lemma map_seq_shift (A : Type) (f : nat -> A) (lo len : nat) :
  map f (seq lo len) = map (fun i => f (lo + i)%nat) (seq 0 len).
Proof.
  rewrite <- (Nat.add_0_r lo) at 1. generalize 0%nat as k.
  induction len as [| len IH]; intros k; simpl; [reflexivity |].
  f_equal. rewrite <- IH. f_equal. f_equal. lia.
Qed.



(** ** Monotonicity in the fixed rate *)

Lemma payment_dates_nonempty (t T_m tau : R) :
  0 < tau -> t < T_m -> payment_dates t T_m tau <> [].
Proof.
  intros Htau Ht. unfold payment_dates.
  assert (Hpos : (0 < Z.to_nat (Rceil ((T_m + tau - (t + tau)) / tau)))%nat).
  { apply Rceil_gt_iff. simpl. apply Rdiv_lt_0_compat; lra. }
  destruct (Z.to_nat (Rceil ((T_m + tau - (t + tau)) / tau)));
    [lia | simpl; congruence].
Qed.

Lemma spec_annuity_pos (y : YieldCurve R) (a sigma t tau r_t : R)
    (dates : list R) :
  0 < tau -> dates <> [] -> 0 < spec_annuity y a sigma t tau r_t dates.
Proof.
  intros Htau Hne. unfold spec_annuity. apply Rsum_pos.
  - destruct dates; [congruence | simpl; congruence].
  - intros x Hx. apply in_map_iff in Hx. destruct Hx as (T_i & <- & _).
    apply Rmult_lt_0_compat; [apply spec_bond_pos | assumption].
Qed.

(** Raising the fixed rate raises the value returned by [V]. *)
Lemma V_fixed_rate_monotone
    (y : YieldCurve R) (mpy t T_m N K1 K2 tau a sigma r_t : R)
    (rates : list R) :
  a <> 0 -> 0 < N -> 0 < tau -> t < T_m -> 0 <= mpy * t ->
  nth_error rates (Z.to_nat (Int_part (mpy * t))) = Some r_t ->
  K1 < K2 ->
  exists v1 v2,
    V mpy t t T_m N K1 tau rates a sigma y = Ok v1 /\
    V mpy t t T_m N K2 tau rates a sigma y = Ok v2 /\
    v1 < v2.
Proof.
  intros Ha HN Htau Ht Hidx Hrate HK.
  assert (Hget : get_item rates (Rtrunc (mpy * t)) = Ok r_t)
    by (now apply get_item_floor).
  pose proof (spec_annuity_pos y a sigma t r_t Htau
                (payment_dates_nonempty Htau Ht)) as Hann.
  eexists. eexists. split; [| split].
  - apply V_R with (r_t := r_t); [assumption | lra | assumption].
  - apply V_R with (r_t := r_t); [assumption | lra | assumption].
  - set (S := spec_annuity y a sigma t tau r_t (payment_dates t T_m tau)) in *.
    assert (0 < N * (K2 - K1) * S).
    { apply Rmult_lt_0_compat; [apply Rmult_lt_0_compat |]; lra. }
    lra.
Qed.

Lemma rates13_at_half_year :
  nth_error rates13 (Z.to_nat (Int_part (12 * (1 / 2)))) = Some (4 / 100).
Proof.
  replace (12 * (1 / 2)) with (IZR 6) by lra.
  rewrite Int_part_IZR. reflexivity.
Qed.

(** C7, as amended. With N > 0, τ > 0 and everything else fixed, a larger
    fixed rate K gives a strictly larger receiver swap value V(t) at every
    exercise date t before T_m. *)
Theorem V_strictly_increasing_in_fixed_rate
    (y : YieldCurve R) (mpy t T_m N K1 K2 tau a sigma r_t : R)
    (rates : list R) :
  a <> 0 -> 0 < N -> 0 < tau -> t < T_m -> 0 <= mpy * t ->
  nth_error rates (Z.to_nat (Int_part (mpy * t))) = Some r_t ->
  K1 < K2 ->
  exists v1 v2,
    V mpy t t T_m N K1 tau rates a sigma y = Ok v1 /\
    V mpy t t T_m N K2 tau rates a sigma y = Ok v2 /\
    v1 < v2.
Proof. apply V_fixed_rate_monotone. Qed.

Lemma V_strictly_increasing_in_fixed_rate_witness :
  (1 / 100 <> 0) /\ (0 < 1) /\ (0 < 1 / 2) /\ (1 / 2 < 3 / 2) /\
  (0 <= 12 * (1 / 2)) /\
  nth_error rates13 (Z.to_nat (Int_part (12 * (1 / 2)))) = Some (4 / 100) /\
  (3 / 100 < 5 / 100) /\
  exists v1 v2,
    V 12 (1 / 2) (1 / 2) (3 / 2) 1 (3 / 100) (1 / 2) rates13 (1 / 100)
      (1 / 100) flat_curve = Ok v1 /\
    V 12 (1 / 2) (1 / 2) (3 / 2) 1 (5 / 100) (1 / 2) rates13 (1 / 100)
      (1 / 100) flat_curve = Ok v2 /\
    v1 < v2.
Proof.
  split; [lra |]. split; [lra |]. split; [lra |]. split; [lra |].
  split; [lra |]. split; [exact rates13_at_half_year |]. split; [lra |].
  apply (@V_strictly_increasing_in_fixed_rate flat_curve 12 (1 / 2) (3 / 2) 1
           (3 / 100) (5 / 100) (1 / 2) (1 / 100) (1 / 100) (4 / 100) rates13);
    try lra.
  exact rates13_at_half_year.
Defined.

(** C7, as stated, fails: on the notebook's flat curve, with N = 1 and
    τ = 1/2, raising K from 3% to 5% at the first exercise date does not
    lower the value returned by [V]. *)
Lemma V_not_decreasing_in_fixed_rate :
  exists v1 v2,
    V 12 (1 / 2) (1 / 2) (3 / 2) 1 (3 / 100) (1 / 2) rates13 (1 / 100)
      (1 / 100) flat_curve = Ok v1 /\
    V 12 (1 / 2) (1 / 2) (3 / 2) 1 (5 / 100) (1 / 2) rates13 (1 / 100)
      (1 / 100) flat_curve = Ok v2 /\
    3 / 100 < 5 / 100 /\
    v1 < v2 /\
    ~ (v2 < v1).
Proof.
  destruct (@V_fixed_rate_monotone flat_curve 12 (1 / 2) (3 / 2) 1 (3 / 100)
              (5 / 100) (1 / 2) (1 / 100) (1 / 100) (4 / 100) rates13)
    as (v1 & v2 & H1 & H2 & Hlt); try lra.
  - exact rates13_at_half_year.
  - exists v1, v2. repeat split; try assumption; lra.
Qed.

(** ** Forward-rate aggregation *)

Lemma resolve_bound_nonneg (len : nat) (z : Z) :
  (0 <= z)%Z -> resolve_bound len z = Nat.min (Z.to_nat z) len.
Proof.
  intros Hz. unfold resolve_bound.
  destruct (Z.ltb_spec z 0); [lia | reflexivity].
Qed.

Lemma Rsum_zeros (A : Type) (l : list A) : Rsum (map (fun _ => 0) l) = 0.
Proof. induction l as [| x l IH]; simpl; [reflexivity | rewrite IH; ring]. Qed.

(** ** Comprehensions over [range] *)

Lemma py_range_In (lo hi x : Z) : In x (py_range lo hi) <-> (lo <= x < hi)%Z.
Proof.
  unfold py_range. rewrite in_map_iff. split.
  - intros (k & <- & Hk). apply in_seq in Hk. lia.
  - intros Hx. exists (Z.to_nat (x - lo)). split; [lia |].
    apply in_seq. lia.
Qed.

Lemma py_range_0_nat (n : nat) :
  py_range 0 (Z.of_nat n) = map Z.of_nat (seq 0 n).
Proof.
  unfold py_range. rewrite Z.sub_0_r, Nat2Z.id. reflexivity.
Qed.

Lemma py_range_0_snoc (n : nat) :
  py_range 0 (Z.of_nat (S n)) = py_range 0 (Z.of_nat n) ++ [Z.of_nat n].
Proof.
  rewrite !py_range_0_nat, seq_S, map_app. reflexivity.
Qed.

Lemma get_item_nth (A : Type) (l : list A) (d : A) (i : Z) :
  (0 <= i < Z.of_nat (length l))%Z ->
  get_item l i = Ok (nth (Z.to_nat i) l d).
Proof.
  intros Hi. rewrite <- (Z2Nat.id i) at 1 by lia.
  apply get_item_nat. apply nth_error_nth'. lia.
Qed.

Lemma map_nth_seq (A B : Type) (h : A -> B) (l : list A) (d : A) :
  map (fun k => h (nth k l d)) (seq 0 (length l)) = map h l.
Proof.
  induction l as [| x l IH]; simpl; [reflexivity |].
  f_equal. rewrite <- seq_shift, map_map. exact IH.
Qed.

(** ** The ensemble of paths, for every arithmetic *)

Section Ensemble.

Context {F : Type} `{Arith F}.

Variable draw : nat -> nat -> F.
Variables (dt r0 a sigma : F) (yield_curve : YieldCurve F).

(** The drawn half of the shock matrix. *)
Let drawn (rows cols : Z) : list (list F) :=
  map (fun i => map (draw i) (seq 0 (Z.to_nat cols))) (seq 0 (Z.to_nat rows)).

Lemma np_random_normal_ok (rows cols : Z) :
  (0 <= rows)%Z -> (0 <= cols)%Z ->
  np_random_normal draw rows cols = Ok (drawn rows cols).
Proof.
  intros Hr Hc. unfold np_random_normal.
  destruct (Z.ltb_spec rows 0); [lia |].
  destruct (Z.ltb_spec cols 0); [lia |]. reflexivity.
Qed.

Lemma np_random_normal_negative (rows cols : Z) :
  (rows < 0)%Z \/ (cols < 0)%Z ->
  np_random_normal draw rows cols = Raise ValueError.
Proof.
  intros Hneg. unfold np_random_normal.
  destruct (Z.ltb_spec rows 0), (Z.ltb_spec cols 0); try reflexivity. lia.
Qed.

Lemma antithetic_shocks_ok (simulations steps : Z) :
  (0 <= simulations)%Z -> (0 <= steps)%Z ->
  antithetic_shocks draw simulations steps
  = Ok (drawn (Z.quot simulations 2) steps
        ++ map (map fneg) (drawn (Z.quot simulations 2) steps)).
Proof.
  intros Hs Hsteps. unfold antithetic_shocks.
  rewrite np_random_normal_ok; [reflexivity | | assumption].
  apply Z.quot_pos; lia.
Qed.

Lemma drawn_length (rows cols : Z) : length (drawn rows cols) = Z.to_nat rows.
Proof. unfold drawn. now rewrite length_map, length_seq. Qed.

(** The tuple built for path [i] from the shock matrix. *)
Let tuple_of (random_z : list (list F)) (steps : Z) (theta : F -> result F)
    (i : Z) : path_params :=
  (i, nth (Z.to_nat i) random_z [], steps, dt, r0, a, sigma, theta,
   yield_curve).

Lemma simulation_params_ok (random_z : list (list F)) (simulations steps : Z)
    (theta : F -> result F) :
  (simulations <= Z.of_nat (length random_z))%Z ->
  simulation_params random_z simulations steps dt r0 a sigma theta yield_curve
  = Ok (map (tuple_of random_z steps theta) (py_range 0 simulations)).
Proof.
  intros Hlen. unfold simulation_params. apply map_result_total.
  intros i Hi. apply py_range_In in Hi.
  rewrite (get_item_nth random_z []) by lia. reflexivity.
Qed.

(** One row too few: the comprehension stops at the first missing row. *)
Lemma simulation_params_short (random_z : list (list F)) (steps : Z)
    (theta : F -> result F) :
  simulation_params random_z (Z.of_nat (S (length random_z))) steps dt r0 a
    sigma theta yield_curve
  = Raise IndexError.
Proof.
  unfold simulation_params. rewrite py_range_0_snoc.
  apply map_result_raise with (g := tuple_of random_z steps theta).
  - intros i Hi. apply py_range_In in Hi.
    rewrite (get_item_nth random_z []) by lia. reflexivity.
  - rewrite get_item_out by lia. reflexivity.
Qed.

Lemma nth_error_map_range (B : Type) (f : Z -> B) (n i : nat) :
  (i < n)%nat ->
  nth_error (map f (py_range 0 (Z.of_nat n))) i = Some (f (Z.of_nat i)).
Proof.
  intros Hi. rewrite py_range_0_nat, map_map.
  rewrite nth_error_map, nth_error_nth' with (d := 0%nat)
    by (now rewrite length_seq).
  rewrite seq_nth by assumption. reflexivity.
Qed.

Lemma even_half (s : Z) :
  (0 <= s)%Z -> Z.even s = true ->
  Z.to_nat s = (2 * Z.to_nat (Z.quot s 2))%nat
  /\ (Z.to_nat s / 2 = Z.to_nat (Z.quot s 2))%nat.
Proof.
  intros Hs Hev. apply Z.even_spec in Hev. destruct Hev as [m ->].
  rewrite Z.mul_comm, Z.quot_mul by lia.
  assert (Hm : Z.to_nat (m * 2) = (2 * Z.to_nat m)%nat) by lia.
  rewrite Hm. split; [reflexivity |].
  rewrite Nat.mul_comm. apply Nat.div_mul. lia.
Qed.

Lemma odd_half (s : Z) :
  (0 < s)%Z -> Z.odd s = true ->
  s = Z.of_nat (S (2 * Z.to_nat (Z.quot s 2))).
Proof.
  intros Hs Hodd. apply Z.odd_spec in Hodd. destruct Hodd as [m ->].
  assert (Hq : Z.quot (2 * m + 1) 2 = m).
  { rewrite Z.quot_div_nonneg by lia.
    symmetry. apply (Z.div_unique (2 * m + 1) 2 m 1); lia. }
  rewrite Hq. lia.
Qed.

(** The shock matrix of an even ensemble and the tuples built from it. *)
Lemma antithetic_params (simulations steps : Z) (theta : F -> result F) :
  (0 <= simulations)%Z -> Z.even simulations = true -> (0 <= steps)%Z ->
  exists random_z params,
    antithetic_shocks draw simulations steps = Ok random_z /\
    simulation_params random_z simulations steps dt r0 a sigma theta
      yield_curve = Ok params /\
    length params = Z.to_nat simulations /\
    forall i, (i < Z.to_nat simulations / 2)%nat ->
      exists p q,
        nth_error params i = Some p /\
        nth_error params (i + Z.to_nat simulations / 2) = Some q /\
        shocks_of q = map fneg (shocks_of p).
Proof.
  intros Hs Hev Hsteps.
  destruct (even_half Hs Hev) as [Htwice Hhalf].
  set (half := drawn (Z.quot simulations 2) steps).
  set (random_z := half ++ map (map fneg) half).
  assert (Hlen_half : length half = Z.to_nat (Z.quot simulations 2))
    by apply drawn_length.
  assert (Hlen : length random_z = Z.to_nat simulations).
  { unfold random_z. rewrite length_app, length_map. lia. }
  exists random_z,
    (map (tuple_of random_z steps theta) (py_range 0 simulations)).
  split; [now apply antithetic_shocks_ok |].
  split; [apply simulation_params_ok; lia |].
  split.
  { rewrite length_map. unfold py_range. rewrite length_map, length_seq. lia. }
  intros i Hi. rewrite Hhalf in *.
  replace (py_range 0 simulations)
    with (py_range 0 (Z.of_nat (Z.to_nat simulations)))
    by (f_equal; lia).
  eexists. eexists.
  split; [apply nth_error_map_range; lia |].
  split; [apply nth_error_map_range; lia |].
  unfold tuple_of, shocks_of. rewrite !Nat2Z.id. unfold random_z.
  rewrite Nat.add_comm, <- Hlen_half, app_nth2_plus.
  rewrite app_nth1 by lia.
  change (@nil F) with (map fneg (@nil F)) at 1.
  apply map_nth.
Qed.

(** An odd positive ensemble size leaves the shock matrix one row short. *)
Lemma get_short_rates_odd (simulations steps : Z) (theta : F -> result F) :
  (0 < simulations)%Z -> Z.odd simulations = true ->
  get_short_rates draw simulations steps dt r0 a sigma theta yield_curve
  = Raise (if (steps <? 0)%Z then ValueError else IndexError).
Proof.
  intros Hs Hodd. unfold get_short_rates.
  destruct (Z.ltb_spec steps 0) as [Hneg | Hsteps].
  - unfold antithetic_shocks.
    rewrite np_random_normal_negative by (now right). reflexivity.
  - rewrite antithetic_shocks_ok by lia. cbn [bind].
    set (random_z := drawn (Z.quot simulations 2) steps
                     ++ map (map fneg) (drawn (Z.quot simulations 2) steps)).
    assert (Hlen : simulations = Z.of_nat (S (length random_z))).
    { unfold random_z. rewrite length_app, length_map, drawn_length.
      rewrite (odd_half Hs Hodd) at 1. f_equal. lia. }
    rewrite Hlen at 1. rewrite simulation_params_short. reflexivity.
Qed.

(** Tuples that differ in the drift argument run to the same path. *)
Lemma simulate_path_theta (i : Z) (Zv : list F) (steps : Z)
    (theta1 theta2 : F -> result F) :
  simulate_path (i, Zv, steps, dt, r0, a, sigma, theta1, yield_curve)
  = simulate_path (i, Zv, steps, dt, r0, a, sigma, theta2, yield_curve).
Proof. reflexivity. Qed.

Lemma map_result_simulate_path (ps1 ps2 : list path_params) :
  Forall2 (fun p q => simulate_path p = simulate_path q) ps1 ps2 ->
  map_result simulate_path ps1 = map_result simulate_path ps2.
Proof.
  induction 1 as [| p q ps1 ps2 Hpq _ IH]; [reflexivity |].
  cbn [map_result]. now rewrite Hpq, IH.
Qed.

(** The tuple lists built with two drift arguments fail alike or hold
    tuples that run alike. *)
Lemma simulation_params_theta (random_z : list (list F))
    (simulations steps : Z) (theta1 theta2 : F -> result F) :
  match simulation_params random_z simulations steps dt r0 a sigma theta1
          yield_curve,
        simulation_params random_z simulations steps dt r0 a sigma theta2
          yield_curve
  with
  | Ok ps1, Ok ps2 =>
      Forall2 (fun p q => simulate_path p = simulate_path q) ps1 ps2
  | Raise e1, Raise e2 => e1 = e2
  | _, _ => False
  end.
Proof.
  unfold simulation_params.
  induction (py_range 0 simulations) as [| i idxs IH].
  - constructor.
  - cbn [map_result].
    destruct (get_item random_z i) as [row | e]; [| reflexivity].
    cbn [bind].
    destruct (map_result _ idxs) as [ps1 | e1] in IH |- *;
      destruct (map_result _ idxs) as [ps2 | e2] in IH |- *;
      try contradiction; [| assumption].
    constructor; [apply simulate_path_theta | assumption].
Qed.

Lemma get_short_rates_theta (simulations steps : Z)
    (theta1 theta2 : F -> result F) :
  get_short_rates draw simulations steps dt r0 a sigma theta1 yield_curve
  = get_short_rates draw simulations steps dt r0 a sigma theta2 yield_curve.
Proof.
  unfold get_short_rates.
  destruct (antithetic_shocks draw simulations steps) as [random_z | e];
    [| reflexivity].
  cbn [bind].
  pose proof (simulation_params_theta random_z simulations steps
                theta1 theta2) as Hrel.
  destruct (simulation_params random_z simulations steps dt r0 a sigma theta1
              yield_curve) as [ps1 | e1];
    destruct (simulation_params random_z simulations steps dt r0 a sigma
                theta2 yield_curve) as [ps2 | e2];
    try contradiction; cbn [bind].
  - now apply map_result_simulate_path.
  - now subst.
Qed.

End Ensemble.

(** C5. For every even number of simulations the shock matrix pairs path i
    of the first half with path i + simulations/2, whose shock vector is the
    element-wise negation of path i's; this holds in every arithmetic, the
    negation being the arithmetic's own. *)
Theorem antithetic_pairing
    (F : Type) (Ar : Arith F) (draw : nat -> nat -> F)
    (dt r0 a sigma : F) (yield_curve : YieldCurve F)
    (simulations steps : Z) (theta : F -> result F) :
  (0 <= simulations)%Z -> Z.even simulations = true -> (0 <= steps)%Z ->
  exists random_z params,
    antithetic_shocks draw simulations steps = Ok random_z /\
    simulation_params random_z simulations steps dt r0 a sigma theta
      yield_curve = Ok params /\
    length params = Z.to_nat simulations /\
    forall i, (i < Z.to_nat simulations / 2)%nat ->
      exists p q,
        nth_error params i = Some p /\
        nth_error params (i + Z.to_nat simulations / 2) = Some q /\
        shocks_of q = map fneg (shocks_of p).
Proof. apply antithetic_params. Qed.

Lemma antithetic_pairing_witness :
  (0 <= 4)%Z /\ Z.even 4 = true /\ (0 <= 3)%Z /\
  exists random_z params,
    antithetic_shocks draw_cols 4 3 = Ok random_z /\
    simulation_params random_z 4 3 (1 / 12) (4 / 100) (1 / 100) (1 / 100)
      theta_const flat_curve = Ok params /\
    length params = Z.to_nat 4 /\
    forall i, (i < Z.to_nat 4 / 2)%nat ->
      exists p q,
        nth_error params i = Some p /\
        nth_error params (i + Z.to_nat 4 / 2) = Some q /\
        shocks_of q = map fneg (shocks_of p).
Proof.
  split; [lia |]. split; [reflexivity |]. split; [lia |].
  apply (@antithetic_pairing R R_arith draw_cols (1 / 12) (4 / 100) (1 / 100)
           (1 / 100) flat_curve 4 3 theta_const);
    [lia | reflexivity | lia].
Defined.

(** C8, as amended. For every odd positive number of simulations the
    simulator returns no ensemble: it fails with the IndexError of the read
    of the missing last row of the shock matrix (with the ValueError of the
    generator if the step count is negative). *)
Theorem get_short_rates_odd_fails
    (F : Type) (Ar : Arith F) (draw : nat -> nat -> F)
    (dt r0 a sigma : F) (yield_curve : YieldCurve F)
    (simulations steps : Z) (theta : F -> result F) :
  (0 < simulations)%Z -> Z.odd simulations = true ->
  get_short_rates draw simulations steps dt r0 a sigma theta yield_curve
  = Raise (if (steps <? 0)%Z then ValueError else IndexError).
Proof. apply get_short_rates_odd. Qed.

Lemma get_short_rates_odd_fails_witness :
  (0 < 3)%Z /\ Z.odd 3 = true /\
  get_short_rates draw_cols 3 120 (1 / 12) (4 / 100) (1 / 100) (1 / 100)
    theta_const flat_curve
  = Raise (if (120 <? 0)%Z then ValueError else IndexError).
Proof.
  split; [lia |]. split; [reflexivity |].
  apply (@get_short_rates_odd_fails R R_arith draw_cols (1 / 12) (4 / 100)
           (1 / 100) (1 / 100) flat_curve 3 120 theta_const);
    [lia | reflexivity].
Defined.

(** C8, as stated, fails: with three simulations the failure is an
    IndexError, not an InvalidEnsembleSizeError. *)
Lemma odd_ensemble_raises_IndexError :
  get_short_rates draw_cols 3 120 (1 / 12) (4 / 100) (1 / 100) (1 / 100)
    theta_const flat_curve
  = Raise IndexError /\
  get_short_rates draw_cols 3 120 (1 / 12) (4 / 100) (1 / 100) (1 / 100)
    theta_const flat_curve
  <> Raise InvalidEnsembleSizeError.
Proof.
  assert (Hrun : get_short_rates draw_cols 3 120 (1 / 12) (4 / 100) (1 / 100)
                   (1 / 100) theta_const flat_curve = Raise IndexError).
  { rewrite get_short_rates_odd; [reflexivity | lia | reflexivity]. }
  split; [exact Hrun |]. rewrite Hrun. discriminate.
Qed.

(** C10. The ensemble returned by the simulator is the same for any two
    values of its theta argument: the drift is rebuilt from the yield curve,
    a and sigma inside each worker. *)
Theorem get_short_rates_ignores_theta
    (F : Type) (Ar : Arith F) (draw : nat -> nat -> F)
    (dt r0 a sigma : F) (yield_curve : YieldCurve F)
    (simulations steps : Z) (theta1 theta2 : F -> result F) :
  get_short_rates draw simulations steps dt r0 a sigma theta1 yield_curve
  = get_short_rates draw simulations steps dt r0 a sigma theta2 yield_curve.
Proof. apply get_short_rates_theta. Qed.

(** ** The Monte Carlo estimator *)

Lemma firstn_min_length (A : Type) (n : nat) (l : list A) :
  firstn (Nat.min n (length l)) l = firstn n l.
Proof.
  destruct (Nat.le_gt_cases n (length l)) as [Hle | Hgt].
  - now rewrite Nat.min_l.
  - rewrite Nat.min_r, firstn_all, firstn_all2 by lia. reflexivity.
Qed.

Lemma slice_to_floor (row : list R) (T_n : R) :
  0 <= T_n ->
  np_sum (slice_to row (Rtrunc T_n + 1)) = exponent_sum row (floor_index T_n).
Proof.
  intros HT. rewrite np_sum_R. unfold slice_to, exponent_sum, floor_index.
  rewrite Rtrunc_nonneg by assumption.
  pose proof (Int_part_nonneg HT) as Hz.
  rewrite resolve_bound_nonneg by lia.
  replace (Z.to_nat (Int_part T_n + 1)) with (S (Z.to_nat (Int_part T_n)))
    by lia.
  now rewrite firstn_min_length.
Qed.

Lemma discounted_payoff_R (swap_values : list R) (T_n : R)
    (forward_rates : list (list R)) (i : nat) :
  0 <= T_n -> (i < length swap_values)%nat ->
  (length swap_values <= length forward_rates)%nat ->
  discounted_payoff swap_values T_n forward_rates (Z.of_nat i)
  = Ok (Rmax (nth i swap_values 0) 0
        * exp (- exponent_sum (nth i forward_rates []) (floor_index T_n))).
Proof.
  intros HT Hi Hrows. unfold discounted_payoff.
  rewrite (get_item_nth swap_values 0) by lia. rewrite Nat2Z.id. cbn [bind].
  cbn [fgtb of_int R_arith].
  destruct (Rlt_dec 0 (nth i swap_values 0)) as [Hpos | Hneg].
  - rewrite (get_item_nth forward_rates []) by lia. rewrite Nat2Z.id.
    cbn [bind to_int fmul fneg np_exp R_arith].
    rewrite slice_to_floor by assumption.
    rewrite Rmax_left by lra. reflexivity.
  - rewrite Rmax_right by lra. f_equal. ring.
Qed.

(** The estimator on a non-empty ensemble with a row of exponents per path. *)
Lemma price_european_MC_R (swap_values : list R) (T_n : R)
    (forward_rates : list (list R)) :
  swap_values <> [] ->
  (length swap_values <= length forward_rates)%nat ->
  0 <= T_n ->
  price_european_MC swap_values T_n forward_rates
  = Ok (mc_estimate (floor_index T_n) swap_values forward_rates).
Proof.
  intros Hne Hrows HT. unfold price_european_MC.
  rewrite py_range_0_nat.
  rewrite (map_result_total _
             (fun z => Rmax (nth (Z.to_nat z) swap_values 0) 0
                       * exp (- exponent_sum (nth (Z.to_nat z) forward_rates [])
                                (floor_index T_n)))).
  2:{ intros z Hz. apply in_map_iff in Hz. destruct Hz as (i & <- & Hi).
      apply in_seq in Hi. rewrite Nat2Z.id.
      apply discounted_payoff_R; [assumption | lia | assumption]. }
  cbn [bind].
  destruct (Z.eqb_spec (Z.of_nat (length swap_values)) 0) as [Hz | _].
  { destruct swap_values; [congruence | simpl in Hz; lia]. }
  cbn [fadd fdiv of_int R_arith]. rewrite fold_left_Rplus.
  unfold mc_estimate. rewrite INR_IZR_INZ, Rplus_0_l, map_map.
  f_equal. f_equal. f_equal. apply map_ext. intros i.
  now rewrite Nat2Z.id.
Qed.

Lemma floor_index_unit (T_n : R) : 0 <= T_n < 1 -> floor_index T_n = 0%nat.
Proof.
  intros HT. unfold floor_index.
  rewrite <- (Int_part_spec T_n 0); [reflexivity | lra].
Qed.

(** X24. On a non-empty ensemble with a row of exponents per path and an
    exercise-time argument T_n >= 0 the estimator returns the mean over all
    paths of max(swapValue, 0)·exp(−Σ exponents[0..⌊T_n⌋]); for T_n < 1,
    as in the notebook's call with T_n = 0.5, the sum is the exponent of the
    first period alone. *)
Theorem price_european_MC_mean
    (swap_values : list R) (T_n : R) (forward_rates : list (list R)) :
  swap_values <> [] ->
  (length swap_values <= length forward_rates)%nat ->
  0 <= T_n ->
  price_european_MC swap_values T_n forward_rates
  = Ok (mc_estimate (floor_index T_n) swap_values forward_rates)
  /\ (T_n < 1 ->
      price_european_MC swap_values T_n forward_rates
      = Ok (mc_estimate 0 swap_values forward_rates)).
Proof.
  intros Hne Hrows HT. split.
  - now apply price_european_MC_R.
  - intros Hlt. rewrite price_european_MC_R by assumption.
    now rewrite floor_index_unit.
Qed.

Lemma price_european_MC_mean_witness :
  one_swap_value <> [] /\
  (length one_swap_value <= length two_period_exponents)%nat /\
  0 <= 1 / 2 /\
  (price_european_MC one_swap_value (1 / 2) two_period_exponents
   = Ok (mc_estimate (floor_index (1 / 2)) one_swap_value two_period_exponents)
   /\ (1 / 2 < 1 ->
       price_european_MC one_swap_value (1 / 2) two_period_exponents
       = Ok (mc_estimate 0 one_swap_value two_period_exponents))).
Proof.
  split; [discriminate |]. split; [simpl; lia |]. split; [lra |].
  apply (@price_european_MC_mean one_swap_value (1 / 2) two_period_exponents);
    [discriminate | simpl; lia | lra].
Defined.

(** C4. The estimator at the exercise-time argument 1 (a tenor of one
    year, passed as the notebook passes its tenor): the slice [:int(T_n)+1]
    takes two exponents, so the payoff exercised at the first tenor date is
    discounted over the first two periods, and the result is not the mean
    taken with the exponent of the first period alone. *)
Lemma price_european_MC_two_periods :
  price_european_MC one_swap_value 1 two_period_exponents
  = Ok (mc_estimate 1 one_swap_value two_period_exponents) /\
  price_european_MC one_swap_value 1 two_period_exponents
  <> Ok (mc_estimate 0 one_swap_value two_period_exponents).
Proof.
  assert (Hrun : price_european_MC one_swap_value 1 two_period_exponents
                 = Ok (mc_estimate 1 one_swap_value two_period_exponents)).
  { rewrite price_european_MC_R; [| discriminate | simpl; lia | lra].
    unfold floor_index. now rewrite Int_part_IZR. }
  split; [exact Hrun |]. rewrite Hrun. intros Heq.
  injection Heq as Heq. unfold mc_estimate, exponent_sum in Heq.
  simpl in Heq. rewrite Rmax_left in Heq by lra.
  assert (Hexp : exp (- (1 + (1 + 0))) = exp (- (1 + 0))) by lra.
  apply exp_inv in Hexp. lra.
Qed.

(** ** Yield-curve construction *)

Lemma np_diff_all_positive (x : list R) :
  existsb (fun d => negb (fgtb d (of_int 0))) (np_diff x) = false ->
  increasing x.
Proof.
  induction x as [| x0 [| x1 tl] IH]; simpl; intros Hd; try exact I.
  apply orb_false_iff in Hd. destruct Hd as [Hhead Htail].
  split; [| now apply IH].
  cbn [fgtb fsub of_int R_arith] in Hhead.
  destruct (Rlt_dec 0 (x1 - x0)); [lra | discriminate].
Qed.

(** With the library's input check, a curve of fewer than two points or of
    maturities that do not increase strictly is refused with a ValueError. *)
Lemma create_yield_curve_refuses
    (fit : list R -> list R -> YieldCurve R) (pts : list (R * R)) :
  (length pts < 2)%nat \/ ~ increasing (map fst pts) ->
  create_yield_curve (CubicSpline fit) pts = Raise ValueError.
Proof.
  intros Hbad. unfold create_yield_curve, CubicSpline.
  rewrite !length_map.
  destruct (Nat.ltb_spec (length pts) 2) as [Hshort | Hlong];
    [reflexivity |].
  rewrite Nat.eqb_refl. cbn [negb].
  destruct (existsb _ (np_diff (map fst pts))) eqn:Hdiff; [reflexivity |].
  destruct Hbad as [Hshort | Hnot]; [lia |].
  exfalso. apply Hnot. now apply np_diff_all_positive.
Qed.

(** C9, as amended. A list of fewer than two points, or one whose maturities
    are not strictly increasing, yields no curve: construction fails with
    the ValueError of the spline constructor, the only check there is. *)
Theorem create_yield_curve_invalid_input
    (fit : list R -> list R -> YieldCurve R) (pts : list (R * R)) :
  (length pts < 2)%nat \/ ~ increasing (map fst pts) ->
  create_yield_curve (CubicSpline fit) pts = Raise ValueError.
Proof. apply create_yield_curve_refuses. Qed.

Lemma create_yield_curve_invalid_input_witness :
  ((length decreasing_points < 2)%nat
   \/ ~ increasing (map fst decreasing_points)) /\
  create_yield_curve (CubicSpline fit_flat) decreasing_points
  = Raise ValueError.
Proof.
  assert (Hbad : (length decreasing_points < 2)%nat
                 \/ ~ increasing (map fst decreasing_points)).
  { right. simpl. intros [Hlt _]. lra. }
  split; [exact Hbad |].
  apply (@create_yield_curve_invalid_input fit_flat decreasing_points Hbad).
Defined.

(** C9, as stated, fails: a single point is refused with a ValueError, not
    with an InvalidCurveError. *)
Lemma single_point_raises_ValueError :
  (length single_point < 2)%nat /\
  create_yield_curve (CubicSpline fit_flat) single_point = Raise ValueError /\
  create_yield_curve (CubicSpline fit_flat) single_point
  <> Raise InvalidCurveError.
Proof.
  assert (Hrun : create_yield_curve (CubicSpline fit_flat) single_point
                 = Raise ValueError).
  { apply create_yield_curve_refuses. left. simpl. lia. }
  split; [simpl; lia |]. split; [exact Hrun |]. rewrite Hrun. discriminate.
Qed.


(** * Further properties of the code *)

(** ** The bond pricer *)

Lemma spec_B_diag (a s : R) : spec_B a s s = 0.
Proof.
  unfold spec_B. replace (a * (s - s)) with 0 by ring. rewrite exp_0. ring.
Qed.

Lemma spec_bond_diag (y : YieldCurve R) (a sigma s r_s : R) :
  spec_bond y a sigma s s r_s = 1.
Proof.
  unfold spec_bond, spec_A. rewrite spec_B_diag.
  replace (0 * yc_call y s - sigma ^ 2 / (4 * a) * 0 ^ 2
                             * (1 - exp (- (2 * a * s)))) with 0 by ring.
  replace (- (0 * r_s)) with 0 by ring. rewrite exp_0.
  unfold spec_P0. field. apply Rgt_not_eq, exp_pos.
Qed.

(** X1. A bond valued at its own maturity is worth one unit, whatever the
    short rate, the volatility and the curve, as long as a <> 0. *)
Theorem P_at_maturity (y : YieldCurve R) (a sigma s r_s : R) :
  a <> 0 -> P s s r_s a sigma y = Ok 1.
Proof.
  intros Ha. rewrite P_R by assumption. now rewrite spec_bond_diag.
Qed.

Lemma P_at_maturity_witness :
  (1 / 100 <> 0) /\ P 2 2 (4 / 100) (1 / 100) (1 / 100) flat_curve = Ok 1.
Proof.
  split; [lra |].
  apply (@P_at_maturity flat_curve (1 / 100) (1 / 100) 2 (4 / 100)). lra.
Defined.

Lemma spec_B_pos (a s t : R) : a <> 0 -> s < t -> 0 < spec_B a s t.
Proof.
  intros Ha Hst. unfold spec_B.
  destruct (Rtotal_order a 0) as [Hneg | [Hz | Hpos]]; [| contradiction |].
  - assert (Hexp : 1 < exp (a * (s - t))).
    { rewrite <- exp_0. apply exp_increasing. nra. }
    assert (Hinv : / a < 0) by (now apply Rinv_lt_0_compat).
    unfold Rdiv. rewrite Rmult_1_l. nra.
  - assert (Hexp : exp (a * (s - t)) < 1).
    { rewrite <- exp_0. apply exp_increasing. nra. }
    assert (Hinv : 0 < / a) by (now apply Rinv_0_lt_compat).
    unfold Rdiv. rewrite Rmult_1_l. nra.
Qed.

Lemma spec_A_pos (y : YieldCurve R) (a sigma s t : R) :
  0 < spec_A y a sigma s t.
Proof.
  unfold spec_A, spec_P0.
  apply Rmult_lt_0_compat; [| apply exp_pos].
  apply Rdiv_lt_0_compat; apply exp_pos.
Qed.

Lemma spec_bond_decreasing (y : YieldCurve R) (a sigma s t r1 r2 : R) :
  a <> 0 -> s < t -> r1 < r2 ->
  spec_bond y a sigma s t r2 < spec_bond y a sigma s t r1.
Proof.
  intros Ha Hst Hr. unfold spec_bond.
  apply Rmult_lt_compat_l; [apply spec_A_pos |].
  apply exp_increasing.
  pose proof (spec_B_pos Ha Hst). nra.
Qed.

(** X2. For a maturity after the valuation time the bond price falls
    strictly when the short rate rises (a <> 0, of either sign). *)
Theorem P_decreasing_in_short_rate
    (y : YieldCurve R) (a sigma s t r1 r2 : R) :
  a <> 0 -> s < t -> r1 < r2 ->
  exists p1 p2,
    P s t r1 a sigma y = Ok p1 /\ P s t r2 a sigma y = Ok p2 /\ p2 < p1.
Proof.
  intros Ha Hst Hr. eexists. eexists.
  split; [now apply P_R |]. split; [now apply P_R |].
  now apply spec_bond_decreasing.
Qed.

Lemma P_decreasing_in_short_rate_witness :
  (1 / 100 <> 0) /\ (1 < 2) /\ (3 / 100 < 5 / 100) /\
  exists p1 p2,
    P 1 2 (3 / 100) (1 / 100) (1 / 100) flat_curve = Ok p1 /\
    P 1 2 (5 / 100) (1 / 100) (1 / 100) flat_curve = Ok p2 /\ p2 < p1.
Proof.
  split; [lra |]. split; [lra |]. split; [lra |].
  apply (@P_decreasing_in_short_rate flat_curve (1 / 100) (1 / 100) 1 2
           (3 / 100) (5 / 100)); lra.
Defined.

(** ** Degenerate and singular inputs, for every arithmetic *)

Lemma for_each_app (A S : Type) (body : A -> S -> result S)
    (xs ys : list A) (s : S) :
  for_each (xs ++ ys) body s
  = match for_each xs body s with
    | Ok s' => for_each ys body s'
    | Raise e => Raise e
    end.
Proof.
  revert s. induction xs as [| x xs IH]; intros s; simpl; [reflexivity |].
  destruct (body x s); [apply IH | reflexivity].
Qed.

Section Degenerate.

Context {F : Type} `{Arith F}.

Local Open Scope num_scope.

Variables (dt r0 a sigma : F) (yield_curve : YieldCurve F).

Lemma B_singular (s t : F) :
  feqb a #0 = true -> B s t a = Raise ZeroDivisionError.
Proof. intros Ha. unfold B, py_div. now rewrite Ha. Qed.

Lemma P_singular (s t r_s : F) :
  feqb a #0 = true -> P s t r_s a sigma yield_curve = Raise ZeroDivisionError.
Proof. intros Ha. unfold P, A. now rewrite B_singular. Qed.

Lemma V_singular (months_per_year t T_0 T_m N K tenor r_t : F)
    (rates : list F) :
  feqb a #0 = true ->
  get_item rates (to_int (months_per_year * t)) = Ok r_t ->
  V months_per_year t T_0 T_m N K tenor rates a sigma yield_curve
  = Raise ZeroDivisionError.
Proof.
  intros Ha Hrate. unfold V. rewrite Hrate. cbn [bind].
  now rewrite P_singular.
Qed.


Lemma simulate_path_negative_steps (i : Z) (Zv : list F) (p : positive)
    (theta : F -> result F) :
  simulate_path (i, Zv, Z.neg p, dt, r0, a, sigma, theta, yield_curve)
  = Raise ValueError.
Proof. reflexivity. Qed.

Lemma simulate_path_zero_divisor (i : Z) (Zv : list F) (n : nat)
    (theta : F -> result F) :
  feqb (#2 * a) #0 = true -> (2 <= n)%nat ->
  simulate_path (i, Zv, Z.of_nat n, dt, r0, a, sigma, theta, yield_curve)
  = Raise ZeroDivisionError.
Proof.
  intros Ha Hn. unfold simulate_path, np_zeros.
  destruct (Z.ltb_spec (Z.of_nat n) 0) as [Hneg | _]; [lia |].
  rewrite Nat2Z.id. cbn [bind].
  rewrite (set_item_nat (repeat #0 n) r0 (k := 0))
    by (rewrite repeat_length; lia).
  cbn [bind]. unfold py_range.
  replace (Z.to_nat (Z.of_nat n - 1)) with (S (n - 2)) by lia.
  cbn [seq map for_each]. unfold euler_step at 1, theta_HW, py_div.
  now rewrite Ha.
Qed.

Variable q : F.
Hypothesis Hq : py_div (sigma ^ 2) (#2 * a) = Ok q.

Lemma euler_step_lengths (Zv : list F) (n j : nat) (st : list F * list F) :
  length (fst st) = n -> length (snd st) = n ->
  (1 <= j < n)%nat -> (j < length Zv)%nat ->
  exists st',
    euler_step Zv dt a sigma (theta_HW a sigma yield_curve) (Z.of_nat j) st
    = Ok st' /\ length (fst st') = n /\ length (snd st') = n.
Proof.
  intros Hdr Hr Hj HZ. destruct st as [dr r]. cbn [fst snd] in Hdr, Hr.
  destruct (nth_error r (j - 1)) as [r_prev |] eqn:Hprev;
    [| apply nth_error_None in Hprev; lia].
  destruct (nth_error Zv j) as [z_j |] eqn:Hz;
    [| apply nth_error_None in Hz; lia].
  unfold euler_step, theta_HW. rewrite Hq. cbn [bind].
  replace (Z.of_nat j - 1)%Z with (Z.of_nat (j - 1)) by lia.
  rewrite (get_item_nat _ _ Hprev). cbn [bind].
  rewrite (get_item_nat _ _ Hz). cbn [bind].
  rewrite set_item_nat by lia. cbn [bind].
  rewrite (get_item_nat (update dr j _) j (x := _))
    by (apply nth_error_update_eq; lia).
  cbn [bind]. rewrite set_item_nat by lia.
  eexists. split; [reflexivity |]. cbn [fst snd].
  now rewrite !update_length.
Qed.

Lemma euler_step_short (Zv : list F) (n j : nat) (st : list F * list F) :
  length (snd st) = n -> (1 <= j < n)%nat -> (length Zv <= j)%nat ->
  euler_step Zv dt a sigma (theta_HW a sigma yield_curve) (Z.of_nat j) st
  = Raise IndexError.
Proof.
  intros Hr Hj HZ. destruct st as [dr r]. cbn [snd] in Hr.
  destruct (nth_error r (j - 1)) as [r_prev |] eqn:Hprev;
    [| apply nth_error_None in Hprev; lia].
  unfold euler_step, theta_HW. rewrite Hq. cbn [bind].
  replace (Z.of_nat j - 1)%Z with (Z.of_nat (j - 1)) by lia.
  rewrite (get_item_nat _ _ Hprev). cbn [bind].
  rewrite get_item_out by lia. reflexivity.
Qed.

(** A shock vector with fewer entries than steps stops the Euler loop at
    the first missing shock. *)
Lemma simulate_path_short_shocks (i : Z) (Zv : list F) (n : nat)
    (theta : F -> result F) :
  (2 <= n)%nat -> (length Zv < n)%nat ->
  simulate_path (i, Zv, Z.of_nat n, dt, r0, a, sigma, theta, yield_curve)
  = Raise IndexError.
Proof.
  intros Hn HZ. unfold simulate_path, np_zeros.
  destruct (Z.ltb_spec (Z.of_nat n) 0) as [Hneg | _]; [lia |].
  rewrite Nat2Z.id. cbn [bind].
  rewrite (set_item_nat (repeat #0 n) r0 (k := 0))
    by (rewrite repeat_length; lia).
  cbn [bind]. unfold py_range.
  set (L := Nat.max 1 (length Zv)).
  replace (Z.to_nat (Z.of_nat n - 1)) with ((L - 1) + S (n - L - 1))%nat
    by lia.
  rewrite seq_app, map_app, for_each_app.
  destruct (@for_each_invariant _
              (fun j => (1 + Z.of_nat j)%Z)
              (euler_step Zv dt a sigma (theta_HW a sigma yield_curve))
              (fun _ st => length (fst st) = n /\ length (snd st) = n)
              (L - 1) 0
              (repeat #0 n, update (repeat #0 n) 0 r0))
    as (st & Hrun & Hdr & Hr).
  - cbn [fst snd]. now rewrite update_length, !repeat_length.
  - intros j st Hj [Hdr Hr].
    replace (1 + Z.of_nat j)%Z with (Z.of_nat (S j)) by lia.
    apply euler_step_lengths; try assumption; lia.
  - rewrite Hrun. cbn [seq map for_each].
    replace (1 + Z.of_nat (0 + (L - 1)))%Z with (Z.of_nat L) by lia.
    rewrite (euler_step_short Zv (n := n)); [reflexivity | assumption | lia | lia].
Qed.

End Degenerate.

Lemma feqb_R_refl (x : R) : feqb x x = true.
Proof.
  cbn [feqb R_arith]. destruct (Req_dec_T x x); [reflexivity | contradiction].
Qed.

Lemma feqb_R_neq (x y : R) : x <> y -> feqb x y = false.
Proof.
  intros Hxy. cbn [feqb R_arith].
  destruct (Req_dec_T x y); [contradiction | reflexivity].
Qed.

Lemma rates13_get_half_year :
  get_item rates13 (to_int (fmul 12 (1 / 2))) = Ok (4 / 100).
Proof.
  cbn [to_int fmul R_arith]. apply get_item_floor; [lra |].
  exact rates13_at_half_year.
Qed.

(** X3. With a mean reversion equal to zero the bond pricer raises
    ZeroDivisionError, and so does the swap valuator once it has read the
    rate of its step; no price is produced. *)
Theorem singular_mean_reversion
    (F : Type) (Ar : Arith F) (a sigma : F) (yield_curve : YieldCurve F)
    (s t r_s months_per_year t_ex T_0 T_m N K tenor r_t : F)
    (rates : list F) :
  feqb a (of_int 0) = true ->
  get_item rates (to_int (fmul months_per_year t_ex)) = Ok r_t ->
  P s t r_s a sigma yield_curve = Raise ZeroDivisionError /\
  V months_per_year t_ex T_0 T_m N K tenor rates a sigma yield_curve
  = Raise ZeroDivisionError.
Proof.
  intros Ha Hrate. split; [now apply P_singular |].
  now apply V_singular with (r_t := r_t).
Qed.

Lemma singular_mean_reversion_witness :
  feqb (0 : R) (of_int 0) = true /\
  get_item rates13 (to_int (fmul 12 (1 / 2))) = Ok (4 / 100) /\
  P 1 2 (4 / 100) 0 (1 / 100) flat_curve = Raise ZeroDivisionError /\
  V 12 (1 / 2) (1 / 2) (3 / 2) 1 (4 / 100) (1 / 2) rates13 0 (1 / 100)
    flat_curve = Raise ZeroDivisionError.
Proof.
  split; [apply feqb_R_refl |]. split; [exact rates13_get_half_year |].
  apply (@singular_mean_reversion R R_arith 0 (1 / 100) flat_curve 1 2
           (4 / 100) 12 (1 / 2) (1 / 2) (3 / 2) 1 (4 / 100) (1 / 2) (4 / 100)
           rates13);
    [apply feqb_R_refl | exact rates13_get_half_year].
Defined.

(** X4. Degenerate step counts of a worker: a negative count raises
    ValueError, a count of zero raises IndexError at [r[0] = r0], and a count
    of one returns the initial rate alone without evaluating the drift. *)
Theorem simulate_path_degenerate_steps
    (F : Type) (Ar : Arith F) (i : Z) (Zv : list F) (p : positive)
    (dt r0 a sigma : F) (theta : F -> result F) (yield_curve : YieldCurve F) :
  simulate_path (i, Zv, Z.neg p, dt, r0, a, sigma, theta, yield_curve)
  = Raise ValueError /\
  simulate_path (i, Zv, 0%Z, dt, r0, a, sigma, theta, yield_curve)
  = Raise IndexError /\
  simulate_path (i, Zv, 1%Z, dt, r0, a, sigma, theta, yield_curve)
  = Ok [r0].
Proof. repeat split. Qed.

(** X5. When 2a compares equal to zero and there are at least two steps,
    a worker raises ZeroDivisionError at the first Euler step, before any
    shock is read. *)
Theorem simulate_path_singular_drift
    (F : Type) (Ar : Arith F) (i : Z) (Zv : list F) (n : nat)
    (dt r0 a sigma : F) (theta : F -> result F) (yield_curve : YieldCurve F) :
  feqb (fmul (of_int 2) a) (of_int 0) = true -> (2 <= n)%nat ->
  simulate_path (i, Zv, Z.of_nat n, dt, r0, a, sigma, theta, yield_curve)
  = Raise ZeroDivisionError.
Proof. apply simulate_path_zero_divisor. Qed.

Lemma simulate_path_singular_drift_witness :
  feqb (fmul (of_int 2) (0 : R)) (of_int 0) = true /\ (2 <= 120)%nat /\
  simulate_path (0%Z, @nil R, Z.of_nat 120, 1 / 12, 4 / 100, 0, 1 / 100,
                 theta_const, flat_curve)
  = Raise ZeroDivisionError.
Proof.
  assert (Hz : feqb (fmul (of_int 2) (0 : R)) (of_int 0) = true).
  { cbn [fmul of_int R_arith]. rewrite Rmult_0_r. apply feqb_R_refl. }
  split; [exact Hz |]. split; [lia |].
  apply (@simulate_path_singular_drift R R_arith 0%Z (@nil R) 120 (1 / 12)
           (4 / 100) 0 (1 / 100) theta_const flat_curve Hz).
  lia.
Defined.

(** X6. With a usable a, at least two steps and a shock vector shorter than
    the step count, a worker raises IndexError: no partial path is
    returned. *)
Theorem simulate_path_missing_shock
    (F : Type) (Ar : Arith F) (i : Z) (Zv : list F) (n : nat)
    (dt r0 a sigma : F) (theta : F -> result F) (yield_curve : YieldCurve F) :
  feqb (fmul (of_int 2) a) (of_int 0) = false ->
  (2 <= n)%nat -> (length Zv < n)%nat ->
  simulate_path (i, Zv, Z.of_nat n, dt, r0, a, sigma, theta, yield_curve)
  = Raise IndexError.
Proof.
  intros Ha Hn HZ.
  apply simulate_path_short_shocks
    with (q := fdiv (fpow sigma 2) (fmul (of_int 2) a)); try assumption.
  unfold py_div. now rewrite Ha.
Qed.

Lemma simulate_path_missing_shock_witness :
  feqb (fmul (of_int 2) (1 / 100 : R)) (of_int 0) = false /\
  (2 <= 5)%nat /\ (length shocks3 < 5)%nat /\
  simulate_path (0%Z, shocks3, Z.of_nat 5, 1 / 12, 4 / 100, 1 / 100, 1 / 100,
                 theta_const, flat_curve)
  = Raise IndexError.
Proof.
  assert (Hnz : feqb (fmul (of_int 2) (1 / 100 : R)) (of_int 0) = false).
  { apply feqb_R_neq. cbn [fmul of_int R_arith]. lra. }
  split; [exact Hnz |]. split; [lia |]. split; [simpl; lia |].
  apply (@simulate_path_missing_shock R R_arith 0%Z shocks3 5 (1 / 12)
           (4 / 100) (1 / 100) (1 / 100) theta_const flat_curve Hnz);
    [lia | simpl; lia].
Defined.

(** ** The shape of the ensemble, for every arithmetic *)

Section EnsembleShape.

Context {F : Type} `{Arith F}.

Local Open Scope num_scope.

Variable draw : nat -> nat -> F.
Variables (dt r0 a sigma q : F) (yield_curve : YieldCurve F).
Variable n : nat.

Hypothesis Hq : py_div (sigma ^ 2) (#2 * a) = Ok q.
Hypothesis Hn : (1 <= n)%nat.

(** The path a tuple runs to, with the empty path for a failed run. *)
Let path_of (p : path_params) : list F :=
  match simulate_path p with
  | Ok r => r
  | Raise _ => []
  end.

Lemma shock_rows_length (simulations : Z) (random_z : list (list F)) (i : nat) :
  antithetic_shocks draw simulations (Z.of_nat n) = Ok random_z ->
  (i < length random_z)%nat ->
  length (nth i random_z []) = n.
Proof.
  unfold antithetic_shocks, np_random_normal.
  destruct ((Z.quot simulations 2 <? 0)%Z || (Z.of_nat n <? 0)%Z);
    [discriminate |].
  cbn [bind]. intros Heq Hi. injection Heq as <-.
  assert (Hin : In (nth i (map (fun i0 => map (draw i0)
                                            (seq 0 (Z.to_nat (Z.of_nat n))))
                             (seq 0 (Z.to_nat (Z.quot simulations 2)))
                        ++ map (map fneg)
                             (map (fun i0 => map (draw i0)
                                               (seq 0 (Z.to_nat (Z.of_nat n))))
                                  (seq 0 (Z.to_nat (Z.quot simulations 2)))))
                    [])
                (map (fun i0 => map (draw i0) (seq 0 (Z.to_nat (Z.of_nat n))))
                     (seq 0 (Z.to_nat (Z.quot simulations 2)))
                 ++ map (map fneg)
                      (map (fun i0 => map (draw i0)
                                        (seq 0 (Z.to_nat (Z.of_nat n))))
                           (seq 0 (Z.to_nat (Z.quot simulations 2))))))
    by (now apply nth_In).
  apply in_app_or in Hin. destruct Hin as [Hin | Hin].
  - apply in_map_iff in Hin. destruct Hin as (k & <- & _).
    now rewrite length_map, length_seq, Nat2Z.id.
  - apply in_map_iff in Hin. destruct Hin as (row & <- & Hrow).
    apply in_map_iff in Hrow. destruct Hrow as (k & <- & _).
    now rewrite !length_map, length_seq, Nat2Z.id.
Qed.

Lemma simulate_path_runs (i : Z) (Zv : list F) (theta : F -> result F) :
  (n <= length Zv)%nat ->
  exists r,
    simulate_path (i, Zv, Z.of_nat n, dt, r0, a, sigma, theta, yield_curve)
    = Ok r /\ length r = n /\ nth_error r 0 = Some r0.
Proof.
  intros HZ.
  destruct (@simulate_path_euler F H Zv dt r0 a sigma q yield_curve n Hq HZ
              i theta Hn) as (r & Hrun & Hlen & H0 & _).
  now exists r.
Qed.

(** An even ensemble runs: one path per shock vector, every path with one
    rate per step and the initial rate first. *)
Lemma get_short_rates_runs (simulations : Z) (theta : F -> result F) :
  (0 <= simulations)%Z -> Z.even simulations = true ->
  exists random_z paths,
    antithetic_shocks draw simulations (Z.of_nat n) = Ok random_z /\
    get_short_rates draw simulations (Z.of_nat n) dt r0 a sigma theta
      yield_curve = Ok paths /\
    length random_z = Z.to_nat simulations /\
    length paths = Z.to_nat simulations /\
    forall i, (i < Z.to_nat simulations)%nat ->
      exists Zi r_i,
        nth_error random_z i = Some Zi /\
        nth_error paths i = Some r_i /\
        simulate_path (Z.of_nat i, Zi, Z.of_nat n, dt, r0, a, sigma, theta,
                       yield_curve) = Ok r_i /\
        length r_i = n /\
        nth_error r_i 0 = Some r0.
Proof.
  intros Hs Hev.
  destruct (even_half Hs Hev) as [Htwice _].
  pose proof (antithetic_shocks_ok draw (steps := Z.of_nat n) Hs
                (Nat2Z.is_nonneg n)) as Hshocks.
  set (random_z := _ ++ _) in Hshocks.
  assert (Hlen : length random_z = Z.to_nat simulations).
  { unfold random_z. rewrite length_app, !length_map, length_seq. lia. }
  assert (Hrow : forall i : nat, (i < Z.to_nat simulations)%nat ->
            simulate_path (Z.of_nat i, nth i random_z [], Z.of_nat n, dt, r0,
                           a, sigma, theta, yield_curve)
            = Ok (path_of (Z.of_nat i, nth i random_z [], Z.of_nat n, dt, r0,
                           a, sigma, theta, yield_curve))
            /\ length (path_of (Z.of_nat i, nth i random_z [], Z.of_nat n, dt,
                                r0, a, sigma, theta, yield_curve)) = n
            /\ nth_error (path_of (Z.of_nat i, nth i random_z [], Z.of_nat n,
                                   dt, r0, a, sigma, theta, yield_curve)) 0
               = Some r0).
  { intros i Hi.
    destruct (simulate_path_runs (Z.of_nat i) (nth i random_z []) theta)
      as (r & Hrun & Hr).
    - rewrite (@shock_rows_length simulations random_z i Hshocks) by lia.
      lia.
    - unfold path_of. rewrite Hrun. auto. }
  exists random_z.
  exists (map (fun i : nat =>
                 path_of (Z.of_nat i, nth i random_z [], Z.of_nat n, dt, r0, a,
                          sigma, theta, yield_curve))
              (seq 0 (Z.to_nat simulations))).
  split; [exact Hshocks |]. split.
  { unfold get_short_rates. rewrite Hshocks. cbn [bind].
    rewrite simulation_params_ok by lia. cbn [bind].
    replace (py_range 0 simulations)
      with (py_range 0 (Z.of_nat (Z.to_nat simulations))) by (f_equal; lia).
    rewrite py_range_0_nat, map_map.
    rewrite (map_result_total simulate_path path_of).
    - f_equal. rewrite map_map. apply map_ext. intros i.
      now rewrite Nat2Z.id.
    - intros p Hp. apply in_map_iff in Hp. destruct Hp as (i & <- & Hi).
      apply in_seq in Hi. rewrite Nat2Z.id. apply Hrow. lia. }
  split; [exact Hlen |]. split; [now rewrite length_map, length_seq |].
  intros i Hi. destruct (Hrow i Hi) as (Hrun & Hr & H0).
  eexists. eexists.
  split; [apply nth_error_nth'; lia |]. split; [| split; [exact Hrun |]].
  - rewrite nth_error_map, nth_error_nth' with (d := 0%nat)
      by (now rewrite length_seq).
    now rewrite seq_nth.
  - now split.
Qed.

End EnsembleShape.

(** X7. For an even ensemble size, at least one step and a usable a, the
    simulator returns one path per shock vector, in order; every path is
    the worker's run on its own shock vector, has one rate per step and
    starts at the initial rate. *)
Theorem get_short_rates_shape
    (F : Type) (Ar : Arith F) (draw : nat -> nat -> F)
    (dt r0 a sigma : F) (yield_curve : YieldCurve F)
    (simulations : Z) (n : nat) (theta : F -> result F) :
  feqb (fmul (of_int 2) a) (of_int 0) = false -> (1 <= n)%nat ->
  (0 <= simulations)%Z -> Z.even simulations = true ->
  exists random_z paths,
    antithetic_shocks draw simulations (Z.of_nat n) = Ok random_z /\
    get_short_rates draw simulations (Z.of_nat n) dt r0 a sigma theta
      yield_curve = Ok paths /\
    length random_z = Z.to_nat simulations /\
    length paths = Z.to_nat simulations /\
    forall i, (i < Z.to_nat simulations)%nat ->
      exists Zi r_i,
        nth_error random_z i = Some Zi /\
        nth_error paths i = Some r_i /\
        simulate_path (Z.of_nat i, Zi, Z.of_nat n, dt, r0, a, sigma, theta,
                       yield_curve) = Ok r_i /\
        length r_i = n /\
        nth_error r_i 0 = Some r0.
Proof.
  intros Ha Hn Hs Hev.
  apply get_short_rates_runs
    with (q := fdiv (fpow sigma 2) (fmul (of_int 2) a)); try assumption.
  unfold py_div. now rewrite Ha.
Qed.

Lemma get_short_rates_shape_witness :
  feqb (fmul (of_int 2) (1 / 100 : R)) (of_int 0) = false /\
  (1 <= 3)%nat /\ (0 <= 4)%Z /\ Z.even 4 = true /\
  exists random_z paths,
    antithetic_shocks draw_cols 4 (Z.of_nat 3) = Ok random_z /\
    get_short_rates draw_cols 4 (Z.of_nat 3) (1 / 12) (4 / 100) (1 / 100)
      (1 / 100) theta_fail flat_curve = Ok paths /\
    length random_z = Z.to_nat 4 /\
    length paths = Z.to_nat 4 /\
    forall i, (i < Z.to_nat 4)%nat ->
      exists Zi r_i,
        nth_error random_z i = Some Zi /\
        nth_error paths i = Some r_i /\
        simulate_path (Z.of_nat i, Zi, Z.of_nat 3, 1 / 12, 4 / 100, 1 / 100,
                       1 / 100, theta_fail, flat_curve) = Ok r_i /\
        length r_i = 3%nat /\
        nth_error r_i 0 = Some (4 / 100).
Proof.
  assert (Hnz : feqb (fmul (of_int 2) (1 / 100 : R)) (of_int 0) = false).
  { apply feqb_R_neq. cbn [fmul of_int R_arith]. lra. }
  split; [exact Hnz |]. split; [lia |]. split; [lia |].
  split; [reflexivity |].
  apply (@get_short_rates_shape R R_arith draw_cols (1 / 12) (4 / 100)
           (1 / 100) (1 / 100) flat_curve 4 3 theta_fail Hnz);
    [lia | lia | reflexivity].
Defined.

(** ** The antithetic pair *)

Lemma nth_error_repeat_zero (n k : nat) (z : R) :
  nth_error (repeat 0 n) k = Some z -> z = 0.
Proof.
  intros Hz. apply nth_error_In in Hz. now apply repeat_spec in Hz.
Qed.

Lemma nth_of_nth_error (l : list R) (k : nat) (x : R) :
  nth_error l k = Some x -> nth k l 0 = x.
Proof. apply nth_error_nth. Qed.

(** The Euler scheme is affine in the shocks: the mean of the paths run on
    a shock vector and on its negation is the path run without shocks. *)
Lemma antithetic_mean (i j k0 : Z) (Zv : list R) (steps : nat)
    (dt r0 a sigma : R) (theta1 theta2 theta3 : R -> result R)
    (y : YieldCurve R) :
  a <> 0 -> (1 <= steps)%nat -> (steps <= length Zv)%nat ->
  exists r_plus r_minus r_mid,
    simulate_path (i, Zv, Z.of_nat steps, dt, r0, a, sigma, theta1, y)
    = Ok r_plus /\
    simulate_path (j, map Ropp Zv, Z.of_nat steps, dt, r0, a, sigma, theta2, y)
    = Ok r_minus /\
    simulate_path (k0, repeat 0 steps, Z.of_nat steps, dt, r0, a, sigma,
                   theta3, y)
    = Ok r_mid /\
    forall k, (k < steps)%nat ->
      (nth k r_plus 0 + nth k r_minus 0) / 2 = nth k r_mid 0.
Proof.
  intros Ha Hsteps HZ.
  assert (Hq : py_div (fpow sigma 2) (fmul (of_int 2) a)
               = Ok (sigma ^ 2 / (2 * a))).
  { cbn [fpow fmul of_int R_arith]. apply py_div_R. lra. }
  assert (HZm : (steps <= length (map Ropp Zv))%nat)
    by (now rewrite length_map).
  assert (HZ0 : (steps <= length (repeat 0%R steps))%nat)
    by (now rewrite repeat_length).
  destruct (@simulate_path_euler R R_arith Zv dt r0 a sigma _ y steps Hq HZ
              i theta1 Hsteps) as (rp & Hrp & _ & Hp0 & Hprec).
  destruct (@simulate_path_euler R R_arith (map Ropp Zv) dt r0 a sigma _ y
              steps Hq HZm j theta2 Hsteps) as (rm & Hrm & _ & Hm0 & Hmrec).
  destruct (@simulate_path_euler R R_arith (repeat 0 steps) dt r0 a sigma _ y
              steps Hq HZ0 k0 theta3 Hsteps) as (rd & Hrd & _ & Hd0 & Hdrec).
  exists rp, rm, rd. repeat split; try assumption.
  induction k as [| k IH]; intros Hk.
  - rewrite (nth_of_nth_error _ _ Hp0), (nth_of_nth_error _ _ Hm0),
      (nth_of_nth_error _ _ Hd0). lra.
  - specialize (IH ltac:(lia)).
    destruct (Hprec (S k)) as (pp & zp & Hpp & Hzp & Hpk); [lia |].
    destruct (Hmrec (S k)) as (pm & zm & Hpm & Hzm & Hmk); [lia |].
    destruct (Hdrec (S k)) as (pd & zd & Hpd & Hzd & Hdk); [lia |].
    replace (S k - 1)%nat with k in Hpp, Hpm, Hpd by lia.
    rewrite (nth_of_nth_error _ _ Hpp), (nth_of_nth_error _ _ Hpm),
      (nth_of_nth_error _ _ Hpd) in IH.
    rewrite (nth_of_nth_error _ _ Hpk), (nth_of_nth_error _ _ Hmk),
      (nth_of_nth_error _ _ Hdk).
    rewrite nth_error_map, Hzp in Hzm. injection Hzm as <-.
    apply nth_error_repeat_zero in Hzd. subst zd pd.
    cbn [fadd fsub fmul fdiv fpow np_exp np_sqrt of_int R_arith].
    field. assumption.
Qed.

(** X8. Antithetic pairing at work: the mean of the paths a worker runs on
    a shock vector and on its negation is, step by step, the path it runs
    with all shocks zero. *)
Theorem antithetic_pair_mean
    (i j k0 : Z) (Zv : list R) (steps : nat) (dt r0 a sigma : R)
    (theta : R -> result R) (y : YieldCurve R) :
  a <> 0 -> (1 <= steps)%nat -> (steps <= length Zv)%nat ->
  exists r_plus r_minus r_mid,
    simulate_path (i, Zv, Z.of_nat steps, dt, r0, a, sigma, theta, y)
    = Ok r_plus /\
    simulate_path (j, map Ropp Zv, Z.of_nat steps, dt, r0, a, sigma, theta, y)
    = Ok r_minus /\
    simulate_path (k0, repeat 0 steps, Z.of_nat steps, dt, r0, a, sigma,
                   theta, y)
    = Ok r_mid /\
    forall k, (k < steps)%nat ->
      (nth k r_plus 0 + nth k r_minus 0) / 2 = nth k r_mid 0.
Proof. apply antithetic_mean. Qed.

Lemma antithetic_pair_mean_witness :
  (1 / 100 <> 0) /\ (1 <= 3)%nat /\ (3 <= length shocks3)%nat /\
  exists r_plus r_minus r_mid,
    simulate_path (0%Z, shocks3, Z.of_nat 3, 1 / 12, 4 / 100, 1 / 100,
                   1 / 100, theta_const, flat_curve)
    = Ok r_plus /\
    simulate_path (1%Z, map Ropp shocks3, Z.of_nat 3, 1 / 12, 4 / 100,
                   1 / 100, 1 / 100, theta_const, flat_curve)
    = Ok r_minus /\
    simulate_path (2%Z, repeat 0 3, Z.of_nat 3, 1 / 12, 4 / 100, 1 / 100,
                   1 / 100, theta_const, flat_curve)
    = Ok r_mid /\
    forall k, (k < 3)%nat ->
      (nth k r_plus 0 + nth k r_minus 0) / 2 = nth k r_mid 0.
Proof.
  split; [lra |]. split; [lia |]. split; [simpl; lia |].
  apply (@antithetic_pair_mean 0%Z 1%Z 2%Z shocks3 3 (1 / 12) (4 / 100)
           (1 / 100) (1 / 100) theta_const flat_curve);
    [lra | lia | simpl; lia].
Defined.

(** ** More on the forward-rate aggregator *)

Lemma py_range_split (k s : Z) :
  (0 <= k < s)%Z ->
  py_range 0 s = py_range 0 k ++ k :: py_range (k + 1) s.
Proof.
  intros Hk. unfold py_range.
  replace (Z.to_nat (s - 0)) with (Z.to_nat (k - 0) + S (Z.to_nat (s - (k + 1))))%nat
    by lia.
  rewrite seq_app, map_app. f_equal. cbn [seq map]. f_equal; [lia |].
  rewrite map_seq_shift. apply map_ext. intros i. lia.
Qed.

Lemma map_nth_firstn (A B : Type) (h : A -> B) (l : list A) (d : A) (k : nat) :
  (k <= length l)%nat ->
  map (fun i => h (nth i l d)) (seq 0 k) = map h (firstn k l).
Proof.
  intros Hk. rewrite <- (map_nth_seq h (firstn k l) d).
  rewrite length_firstn, Nat.min_l by assumption.
  apply map_ext_in. intros i Hi. apply in_seq in Hi.
  f_equal. rewrite <- (firstn_skipn k l) at 1.
  apply app_nth1. rewrite length_firstn. lia.
Qed.

Lemma floor_index_le (x y : R) :
  0 <= x -> x <= y -> (floor_index x <= floor_index y)%nat.
Proof.
  intros Hx Hxy. unfold floor_index.
  pose proof (Int_part_nonneg Hx). pose proof (Int_part_le Hxy). lia.
Qed.

Lemma floor_index_zero : floor_index 0 = 0%nat.
Proof. unfold floor_index. now rewrite Int_part_IZR. Qed.

(** ** More on the swap valuator *)



Lemma map_result_map (A B C : Type) (f : B -> result C) (h : A -> B)
    (xs : list A) :
  map_result f (map h xs) = map_result (fun x => f (h x)) xs.
Proof.
  induction xs as [| x xs IH]; simpl; [reflexivity |]. now rewrite IH.
Qed.

(** A comprehension whose calls either succeed or raise one exception, and
    of which one raises, raises that exception. *)
Lemma map_result_some_raise (A B : Type) (f : A -> result B) (e : pyexn)
    (xs : list A) :
  (forall x, In x xs -> f x = Raise e \/ exists y, f x = Ok y) ->
  (exists x, In x xs /\ f x = Raise e) ->
  map_result f xs = Raise e.
Proof.
  induction xs as [| x xs IH]; intros Hall (x0 & Hin & Hx0).
  - contradiction.
  - cbn [map_result].
    destruct (Hall x (or_introl eq_refl)) as [Hx | (y0 & Hx)];
      rewrite Hx; [reflexivity |].
    rewrite IH; [reflexivity | |].
    + intros z Hz. apply Hall. now right.
    + destruct Hin as [<- | Hin]; [congruence |]. now exists x0.
Qed.


(** X12. At an exercise date t before T_m there are a bond price p_m and a
    positive annuity, both independent of the notional and of the fixed
    rate, such that V = N·(K·annuity − (1 − p_m)): the value is proportional
    to N, affine in K, and the bond term P(t,T_0) with T_0 = t is 1. *)
Theorem V_affine_in_fixed_rate
    (y : YieldCurve R) (mpy t T_m tau a sigma r_t : R) (rates : list R) :
  a <> 0 -> 0 < tau -> t < T_m -> 0 <= mpy * t ->
  nth_error rates (floor_index (mpy * t)) = Some r_t ->
  exists p_m annuity,
    P t T_m r_t a sigma y = Ok p_m /\
    0 < annuity /\
    forall N K,
      V mpy t t T_m N K tau rates a sigma y
      = Ok (N * (K * annuity - (1 - p_m))).
Proof.
  intros Ha Htau Ht Hidx Hrate.
  exists (spec_bond y a sigma t T_m r_t),
    (spec_annuity y a sigma t tau r_t (payment_dates t T_m tau)).
  split; [now apply P_R |]. split.
  - apply spec_annuity_pos; [assumption |].
    now apply payment_dates_nonempty.
  - intros N K. rewrite V_R with (r_t := r_t);
      [| assumption | lra | now apply get_item_floor].
    rewrite spec_bond_diag. f_equal. ring.
Qed.

Lemma V_affine_in_fixed_rate_witness :
  (1 / 100 <> 0) /\ (0 < 1 / 2) /\ (1 / 2 < 3 / 2) /\ (0 <= 12 * (1 / 2)) /\
  nth_error rates13 (floor_index (12 * (1 / 2))) = Some (4 / 100) /\
  exists p_m annuity,
    P (1 / 2) (3 / 2) (4 / 100) (1 / 100) (1 / 100) flat_curve = Ok p_m /\
    0 < annuity /\
    forall N K,
      V 12 (1 / 2) (1 / 2) (3 / 2) N K (1 / 2) rates13 (1 / 100) (1 / 100)
        flat_curve
      = Ok (N * (K * annuity - (1 - p_m))).
Proof.
  split; [lra |]. split; [lra |]. split; [lra |]. split; [lra |].
  split; [exact rates13_at_half_year |].
  apply (@V_affine_in_fixed_rate flat_curve 12 (1 / 2) (3 / 2) (1 / 2)
           (1 / 100) (1 / 100) (4 / 100) rates13); try lra.
  exact rates13_at_half_year.
Defined.




(** ** More on the Monte Carlo estimator *)

(** X16. An empty ensemble of swap values makes the estimator divide by
    zero: it raises ZeroDivisionError whatever the other arguments are. *)
Theorem price_european_MC_empty
    (F : Type) (Ar : Arith F) (T_n : F) (forward_rates : list (list F)) :
  price_european_MC [] T_n forward_rates = Raise ZeroDivisionError.
Proof. reflexivity. Qed.

(** The entry appended for path [i], for any exercise-time argument. *)
Lemma discounted_payoff_cases (swap_values : list R) (T_n : R)
    (forward_rates : list (list R)) (i : nat) :
  (i < length swap_values)%nat ->
  discounted_payoff swap_values T_n forward_rates (Z.of_nat i)
  = if Rlt_dec 0 (nth i swap_values 0) then
      if (i <? length forward_rates)%nat then
        Ok (nth i swap_values 0
            * exp (- np_sum (slice_to (nth i forward_rates [])
                                      (Rtrunc T_n + 1))))
      else Raise IndexError
    else Ok 0.
Proof.
  intros Hi. unfold discounted_payoff.
  rewrite (get_item_nth swap_values 0) by lia. rewrite Nat2Z.id. cbn [bind].
  cbn [fgtb of_int R_arith].
  destruct (Rlt_dec 0 (nth i swap_values 0)) as [Hpos | Hneg];
    [| reflexivity].
  destruct (Nat.ltb_spec i (length forward_rates)) as [Hrow | Hrow].
  - rewrite (get_item_nth forward_rates []) by lia. rewrite Nat2Z.id.
    reflexivity.
  - rewrite get_item_out by lia. reflexivity.
Qed.

Lemma Rsum_nonneg (l : list R) : (forall x, In x l -> 0 <= x) -> 0 <= Rsum l.
Proof.
  induction l as [| x l IH]; intros Hpos; simpl; [lra |].
  assert (0 <= x) by (apply Hpos; now left).
  assert (0 <= Rsum l) by (apply IH; intros z Hz; apply Hpos; now right).
  lra.
Qed.

Lemma INR_length_pos (A : Type) (l : list A) : l <> [] -> 0 < INR (length l).
Proof.
  intros Hne. apply lt_0_INR. destruct l; [congruence | simpl; lia].
Qed.

(** The estimator once every entry of the loop is known to succeed. *)
Lemma price_european_MC_of_entries (swap_values : list R) (T_n : R)
    (forward_rates : list (list R)) (g : nat -> R) :
  swap_values <> [] ->
  (forall i, (i < length swap_values)%nat ->
     discounted_payoff swap_values T_n forward_rates (Z.of_nat i) = Ok (g i)) ->
  price_european_MC swap_values T_n forward_rates
  = Ok (Rsum (map g (seq 0 (length swap_values))) / INR (length swap_values)).
Proof.
  intros Hne Hentries. unfold price_european_MC.
  rewrite py_range_0_nat, map_result_map.
  rewrite (map_result_total _ g).
  2:{ intros i Hi. apply in_seq in Hi. apply Hentries. lia. }
  cbn [bind].
  destruct (Z.eqb_spec (Z.of_nat (length swap_values)) 0) as [Hz | _].
  { destruct swap_values; [congruence | simpl in Hz; lia]. }
  cbn [fadd fdiv of_int R_arith].
  rewrite fold_left_Rplus, INR_IZR_INZ, Rplus_0_l. reflexivity.
Qed.

Lemma price_european_MC_returns_nonneg
    (swap_values : list R) (T_n : R) (forward_rates : list (list R)) :
  swap_values <> [] ->
  (length swap_values <= length forward_rates)%nat ->
  exists v,
    price_european_MC swap_values T_n forward_rates = Ok v /\ 0 <= v.
Proof.
  intros Hne Hrows.
  set (g := fun i : nat =>
              if Rlt_dec 0 (nth i swap_values 0) then
                nth i swap_values 0
                * exp (- np_sum (slice_to (nth i forward_rates [])
                                          (Rtrunc T_n + 1)))
              else 0).
  exists (Rsum (map g (seq 0 (length swap_values)))
          / INR (length swap_values)).
  split.
  - apply price_european_MC_of_entries; [assumption |].
    intros i Hi. rewrite discounted_payoff_cases by assumption. unfold g.
    destruct (Rlt_dec 0 (nth i swap_values 0)); [| reflexivity].
    destruct (Nat.ltb_spec i (length forward_rates)); [reflexivity | lia].
  - apply Rmult_le_pos.
    + apply Rsum_nonneg. intros x Hx. apply in_map_iff in Hx.
      destruct Hx as (i & <- & _). unfold g.
      destruct (Rlt_dec 0 (nth i swap_values 0)) as [Hpos | _]; [| lra].
      apply Rmult_le_pos; [lra |]. left. apply exp_pos.
    + left. apply Rinv_0_lt_compat. now apply INR_length_pos.
Qed.

(** X17. On a non-empty ensemble with a row of exponents per path the
    estimator returns a price, and the price is never negative, whatever
    the exercise-time argument. *)
Theorem price_european_MC_nonnegative
    (swap_values : list R) (T_n : R) (forward_rates : list (list R)) :
  swap_values <> [] ->
  (length swap_values <= length forward_rates)%nat ->
  exists v,
    price_european_MC swap_values T_n forward_rates = Ok v /\ 0 <= v.
Proof. apply price_european_MC_returns_nonneg. Qed.

Lemma price_european_MC_nonnegative_witness :
  one_swap_value <> [] /\
  (length one_swap_value <= length two_period_exponents)%nat /\
  exists v,
    price_european_MC one_swap_value (-3) two_period_exponents = Ok v
    /\ 0 <= v.
Proof.
  split; [discriminate |]. split; [simpl; lia |].
  apply (@price_european_MC_nonnegative one_swap_value (-3)
           two_period_exponents);
    [discriminate | simpl; lia].
Defined.

(** X18. When no swap value is positive the price is zero, and the forward
    rates are never read: the matrix may even be empty. *)
Theorem price_european_MC_out_of_the_money
    (swap_values : list R) (T_n : R) (forward_rates : list (list R)) :
  swap_values <> [] ->
  (forall x, In x swap_values -> x <= 0) ->
  price_european_MC swap_values T_n forward_rates = Ok 0.
Proof.
  intros Hne Hneg.
  rewrite price_european_MC_of_entries with (g := fun _ : nat => 0);
    [| assumption |].
  - rewrite Rsum_zeros. f_equal. unfold Rdiv. ring.
  - intros i Hi. rewrite discounted_payoff_cases by assumption.
    destruct (Rlt_dec 0 (nth i swap_values 0)) as [Hpos | _]; [| reflexivity].
    specialize (Hneg (nth i swap_values 0) (nth_In _ _ Hi)). lra.
Qed.

Lemma price_european_MC_out_of_the_money_witness :
  non_positive_values <> [] /\
  (forall x, In x non_positive_values -> x <= 0) /\
  price_european_MC non_positive_values (1 / 2) [] = Ok 0.
Proof.
  assert (Hneg : forall x, In x non_positive_values -> x <= 0).
  { intros x [<- | [<- | []]]; lra. }
  split; [discriminate |]. split; [exact Hneg |].
  apply (@price_european_MC_out_of_the_money non_positive_values (1 / 2) []);
    [discriminate | exact Hneg].
Defined.

(** X19. A positive swap value on a path that has no row in the forward
    rate matrix makes the estimator raise IndexError. *)
Theorem price_european_MC_missing_row
    (swap_values : list R) (T_n : R) (forward_rates : list (list R))
    (i : nat) (x : R) :
  nth_error swap_values i = Some x -> 0 < x ->
  (length forward_rates <= i)%nat ->
  price_european_MC swap_values T_n forward_rates = Raise IndexError.
Proof.
  intros Hx Hpos Hrow.
  assert (Hi : (i < length swap_values)%nat)
    by (apply nth_error_Some; congruence).
  unfold price_european_MC.
  rewrite py_range_0_nat, map_result_map.
  rewrite map_result_some_raise with (e := IndexError); [reflexivity | |].
  - intros k Hk. apply in_seq in Hk.
    rewrite discounted_payoff_cases by lia.
    destruct (Rlt_dec 0 (nth k swap_values 0)); [| right; eauto].
    destruct (k <? length forward_rates)%nat; [right; eauto | now left].
  - exists i. split; [apply in_seq; lia |].
    rewrite discounted_payoff_cases by assumption.
    rewrite (nth_of_nth_error _ _ Hx).
    destruct (Rlt_dec 0 x); [| contradiction].
    destruct (Nat.ltb_spec i (length forward_rates)); [lia | reflexivity].
Qed.

Lemma price_european_MC_missing_row_witness :
  nth_error mixed_swap_values 1 = Some 1 /\ 0 < 1 /\
  (length two_period_exponents <= 1)%nat /\
  price_european_MC mixed_swap_values (1 / 2) two_period_exponents
  = Raise IndexError.
Proof.
  split; [reflexivity |]. split; [lra |]. split; [simpl; lia |].
  apply (@price_european_MC_missing_row mixed_swap_values (1 / 2)
           two_period_exponents 1 1);
    [reflexivity | lra | simpl; lia].
Defined.

(** ** Accepted curves *)

Lemma np_diff_increasing (x : list R) :
  increasing x ->
  existsb (fun d => negb (fgtb d (of_int 0))) (np_diff x) = false.
Proof.
  induction x as [| x0 [| x1 tl] IH]; simpl; intros Hinc; try reflexivity.
  destruct Hinc as [Hlt Htl]. apply orb_false_iff. split; [| now apply IH].
  cbn [fgtb fsub of_int R_arith].
  destruct (Rlt_dec 0 (x1 - x0)); [reflexivity | lra].
Qed.

(** X20. With the library's input check, at least two points with strictly
    increasing maturities are accepted, and the curve is the fit of the
    maturities and the yields, each list in the order of the points. *)
Theorem create_yield_curve_accepts
    (fit : list R -> list R -> YieldCurve R) (pts : list (R * R)) :
  (2 <= length pts)%nat -> increasing (map fst pts) ->
  create_yield_curve (CubicSpline fit) pts
  = Ok (fit (map fst pts) (map snd pts)).
Proof.
  intros Hlen Hinc. unfold create_yield_curve, CubicSpline.
  rewrite !length_map.
  destruct (Nat.ltb_spec (length pts) 2) as [Hshort | _]; [lia |].
  rewrite Nat.eqb_refl. cbn [negb].
  now rewrite np_diff_increasing.
Qed.

Lemma create_yield_curve_accepts_witness :
  (2 <= length flat_yields)%nat /\ increasing (map fst flat_yields) /\
  create_yield_curve (CubicSpline fit_flat) flat_yields
  = Ok (fit_flat (map fst flat_yields) (map snd flat_yields)).
Proof.
  assert (Hinc : increasing (map fst flat_yields)).
  { simpl. repeat split; lra. }
  split; [simpl; lia |]. split; [exact Hinc |].
  apply (@create_yield_curve_accepts fit_flat flat_yields);
    [simpl; lia | exact Hinc].
Defined.

(** ** The pricing cell *)

Lemma column0_empty_rows (A : Type) (l : list A) :
  l <> [] -> column0 (map (fun _ => @nil R) l) = Raise IndexError.
Proof.
  intros Hne. destruct l as [| x l]; [congruence | reflexivity].
Qed.

(** X23. With zero simulations every stage returns an empty result and the
    pricing cell raises IndexError at the first column of the empty swap
    value array, in every arithmetic and for every non-negative step
    count. *)
Theorem european_sim_value_no_simulations
    (F : Type) (Ar : Arith F) (draw : nat -> nat -> F) (steps : Z)
    (mpy dt r0 a sigma : F) (theta : F -> result F) (y : YieldCurve F)
    (T_m tenor N K : F) :
  (0 <= steps)%Z ->
  european_sim_value draw 0 steps mpy dt r0 a sigma theta y T_m tenor N K
  = Raise IndexError.
Proof.
  intros Hsteps.
  unfold european_sim_value, get_short_rates, antithetic_shocks,
    np_random_normal.
  destruct (Z.ltb_spec steps 0) as [Hneg | _]; [lia | reflexivity].
Qed.

Lemma european_sim_value_no_simulations_witness :
  (0 <= 120)%Z /\
  european_sim_value draw_cols 0 120 12 (1 / 12) (4 / 100) (1 / 100)
    (1 / 100) theta_fail flat_curve 5 (1 / 2) 1 (4 / 100)
  = Raise IndexError.
Proof.
  split; [lia |].
  apply (@european_sim_value_no_simulations R R_arith draw_cols 120 12
           (1 / 12) (4 / 100) (1 / 100) (1 / 100) theta_fail flat_curve 5
           (1 / 2) 1 (4 / 100)).
  lia.
Defined.

(** * The stages on the code's own arithmetic *)

(** The statements of this part hold for every arithmetic: the dates are
    the entries [np.arange] returns and the step indices are the
    arithmetic's own [int(...)], whatever rounding decides them to be. *)

Lemma map_result_Forall2 (A B : Type) (f : A -> result B) (xs : list A) :
  (forall x, In x xs -> exists y, f x = Ok y) ->
  exists ys, map_result f xs = Ok ys /\ Forall2 (fun x y => f x = Ok y) xs ys.
Proof.
  induction xs as [| x xs IH]; intros Hf.
  - exists []. split; [reflexivity | constructor].
  - destruct (Hf x (or_introl eq_refl)) as (y & Hy).
    destruct IH as (ys & Hys & Hall); [intros z Hz; apply Hf; now right |].
    exists (y :: ys). split; [| now constructor].
    cbn [map_result]. now rewrite Hy, Hys.
Qed.

Lemma map_result_Forall2_with (A B : Type) (f : A -> result B)
    (Q : A -> B -> Prop) (xs : list A) :
  (forall x, In x xs -> exists y, f x = Ok y /\ Q x y) ->
  exists ys,
    map_result f xs = Ok ys /\ Forall2 (fun x y => f x = Ok y /\ Q x y) xs ys.
Proof.
  induction xs as [| x xs IH]; intros Hf.
  - exists []. split; [reflexivity | constructor].
  - destruct (Hf x (or_introl eq_refl)) as (y & Hy & HQ).
    destruct IH as (ys & Hys & Hall); [intros z Hz; apply Hf; now right |].
    exists (y :: ys). split; [| now constructor].
    cbn [map_result]. now rewrite Hy, Hys.
Qed.

Lemma map_result_nth_range (A B : Type) (f : A -> result B) (l : list A)
    (d : A) :
  map_result (fun z => f (nth (Z.to_nat z) l d))
             (py_range 0 (Z.of_nat (length l)))
  = map_result f l.
Proof.
  rewrite py_range_0_nat, map_result_map.
  rewrite (map_result_ext _ (fun k => f (nth k l d)))
    by (intros k _; now rewrite Nat2Z.id).
  induction l as [| x l IH]; [reflexivity |].
  cbn [length seq map_result nth]. rewrite <- seq_shift, map_result_map.
  cbn [nth]. now rewrite IH.
Qed.

Lemma flat_map_seq_S (A : Type) (g : nat -> list A) (lo n : nat) :
  flat_map g (seq (S lo) n) = flat_map (fun k => g (S k)) (seq lo n).
Proof.
  rewrite <- seq_shift, !flat_map_concat_map, map_map. reflexivity.
Qed.

Section ForwardRates.

Context {F : Type} `{Arith F}.

Local Open Scope num_scope.

Variables (mpy dt T_m tenor : F).

(** The exponent as the code forms it, from the clipped slice. *)
Let slice_sum_at (path : list F) (t : F) : F :=
  np_sum (map (fun x => x * dt)
              (slice path (to_int (mpy * t)) (to_int (mpy * (t + tenor))))).

(** The slice between two non-negative bounds lists the steps of the index
    range that exist. *)
Lemma slice_step_terms (path : list F) (lo hi : nat) :
  map (fun x => x * dt)
      (firstn (Nat.min hi (length path) - Nat.min lo (length path))
              (skipn (Nat.min lo (length path)) path))
  = step_terms path dt lo hi.
Proof.
  unfold step_terms. revert lo hi.
  induction path as [| x p IH]; intros lo hi.
  - rewrite !Nat.min_0_r. cbn [length Nat.sub skipn firstn map].
    induction (seq lo (hi - lo)) as [| k ks IHk]; [reflexivity |].
    cbn [flat_map]. rewrite <- IHk. now destruct k.
  - destruct lo as [| l], hi as [| h]; cbn [length].
    + reflexivity.
    + rewrite Nat.min_0_l, Nat.sub_0_r. rewrite <- Nat.succ_min_distr.
      cbn [skipn firstn map Nat.sub seq flat_map nth_error app]. f_equal.
      rewrite flat_map_seq_S. cbn [nth_error].
      specialize (IH 0%nat h). rewrite Nat.min_0_l, !Nat.sub_0_r in IH.
      cbn [skipn] in IH. exact IH.
    + reflexivity.
    + rewrite <- !Nat.succ_min_distr. cbn [skipn Nat.sub]. rewrite IH.
      rewrite flat_map_seq_S. reflexivity.
Qed.

Lemma slice_sum_period (path : list F) (t : F) :
  (0 <= to_int (fmul mpy t))%Z -> (0 <= to_int (fmul mpy (fadd t tenor)))%Z ->
  slice_sum_at path t = period_sum mpy dt tenor path t.
Proof.
  intros Hlo Hhi. unfold slice_sum_at, period_sum, slice.
  rewrite !resolve_bound_nonneg by assumption.
  now rewrite slice_step_terms.
Qed.

Lemma forward_rate_at (paths : list (list F)) (i : nat) (path : list F)
    (t : F) :
  nth_error paths i = Some path ->
  forward_rate mpy dt tenor paths (Z.of_nat i) t = Ok (slice_sum_at path t).
Proof.
  intros Hpath. unfold forward_rate.
  now rewrite (get_item_nat _ _ Hpath).
Qed.

Lemma forward_rates_row_at (paths : list (list F)) (i : nat)
    (path : list F) (ts : list F) :
  np_arange #0 T_m tenor = Ok ts ->
  nth_error paths i = Some path ->
  forward_rates_row mpy dt T_m tenor paths (Z.of_nat i)
  = Ok (map (slice_sum_at path) ts).
Proof.
  intros Hts Hpath. unfold forward_rates_row. rewrite Hts. cbn [bind].
  apply map_result_total. intros t _. now apply forward_rate_at.
Qed.

Lemma forward_rates_row_missing (paths : list (list F)) (i : Z)
    (t0 : F) (ts : list F) :
  np_arange #0 T_m tenor = Ok (t0 :: ts) ->
  (Z.of_nat (length paths) <= i)%Z ->
  forward_rates_row mpy dt T_m tenor paths i = Raise IndexError.
Proof.
  intros Hts Hi. unfold forward_rates_row. rewrite Hts. cbn [bind map_result].
  unfold forward_rate at 1. now rewrite get_item_out.
Qed.

(** The rows of the first [k] paths, [k] within the ensemble. *)
Lemma get_forward_rates_rows (paths : list (list F)) (k : nat)
    (ts : list F) :
  np_arange #0 T_m tenor = Ok ts ->
  (k <= length paths)%nat ->
  get_forward_rates (Z.of_nat k) mpy dt T_m tenor paths
  = Ok (map (fun path => map (slice_sum_at path) ts) (firstn k paths)).
Proof.
  intros Hts Hk. unfold get_forward_rates.
  rewrite (map_result_total _
             (fun z => map (slice_sum_at (nth (Z.to_nat z) paths [])) ts)).
  - rewrite py_range_0_nat, map_map. f_equal.
    rewrite <- (map_nth_firstn (fun path => map (slice_sum_at path) ts)
                  paths [] Hk).
    apply map_ext. intros i. now rewrite Nat2Z.id.
  - intros z Hz. apply py_range_In in Hz.
    rewrite <- (Z2Nat.id z) at 1 by lia.
    apply forward_rates_row_at; [assumption |].
    apply nth_error_nth'. lia.
Qed.

Lemma get_forward_rates_periods (paths : list (list F)) (k : nat)
    (ts : list F) :
  np_arange #0 T_m tenor = Ok ts ->
  (forall t, In t ts ->
     (0 <= to_int (fmul mpy t))%Z /\ (0 <= to_int (fmul mpy (fadd t tenor)))%Z) ->
  (k <= length paths)%nat ->
  get_forward_rates (Z.of_nat k) mpy dt T_m tenor paths
  = Ok (map (fun path => map (period_sum mpy dt tenor path) ts)
            (firstn k paths)).
Proof.
  intros Hts Hidx Hk. rewrite (get_forward_rates_rows paths Hts Hk).
  f_equal. apply map_ext. intros path. apply map_ext_in. intros t Ht.
  destruct (Hidx t Ht). now apply slice_sum_period.
Qed.

Lemma get_forward_rates_past (paths : list (list F)) (simulations : Z)
    (t0 : F) (ts : list F) :
  np_arange #0 T_m tenor = Ok (t0 :: ts) ->
  (Z.of_nat (length paths) < simulations)%Z ->
  get_forward_rates simulations mpy dt T_m tenor paths = Raise IndexError.
Proof.
  intros Hts Hs. unfold get_forward_rates.
  rewrite (py_range_split (k := Z.of_nat (length paths))) by lia.
  apply map_result_raise
    with (g := fun z => map (slice_sum_at (nth (Z.to_nat z) paths []))
                            (t0 :: ts)).
  - intros z Hz. apply py_range_In in Hz.
    rewrite <- (Z2Nat.id z) at 1 by lia.
    apply forward_rates_row_at; [assumption |].
    apply nth_error_nth'. lia.
  - eapply forward_rates_row_missing; [eassumption | lia].
Qed.

End ForwardRates.

Lemma Rtrunc_pos (x : R) : 0 <= x -> (0 <= Rtrunc x)%Z.
Proof.
  intros Hx. rewrite Rtrunc_nonneg by assumption. now apply Int_part_nonneg.
Qed.

Lemma half_year_starts_arange :
  np_arange (of_int 0) 1 (1 / 2) = Ok half_year_starts.
Proof.
  cbn [of_int R_arith]. rewrite np_arange_R by lra.
  replace ((1 - 0) / (1 / 2)) with (IZR 2) by lra.
  rewrite Rceil_IZR. reflexivity.
Qed.

Lemma half_year_starts_indices (t : R) :
  In t half_year_starts ->
  (0 <= to_int (fmul 12%R t))%Z
  /\ (0 <= to_int (fmul 12%R (fadd t (1 / 2)%R)))%Z.
Proof.
  intros Hin. assert (Ht : 0 <= t).
  { destruct Hin as [<- | [<- | []]]; simpl; lra. }
  cbn [to_int fmul fadd R_arith]. split; apply Rtrunc_pos; lra.
Qed.

Lemma rates13_pair_rectangular :
  forall path, In path [rates13; rates13] -> length path = 13%nat.
Proof. intros path [<- | [<- | []]]; reflexivity. Qed.



(** X9. The aggregator reads the first [simulations] paths only: with a
    count k within a rectangular ensemble it returns exactly the rows of
    exponents of the first k paths and ignores the remaining ones, in every
    arithmetic. *)
Theorem get_forward_rates_prefix
    (F : Type) (Ar : Arith F) (mpy dt T_m tenor : F)
    (short_rate_paths : list (list F)) (steps k : nat) (ts : list F) :
  (forall path, In path short_rate_paths -> length path = steps) ->
  np_arange (of_int 0) T_m tenor = Ok ts ->
  (forall t, In t ts ->
     (0 <= to_int (fmul mpy t))%Z
     /\ (0 <= to_int (fmul mpy (fadd t tenor)))%Z) ->
  (k <= length short_rate_paths)%nat ->
  get_forward_rates (Z.of_nat k) mpy dt T_m tenor short_rate_paths
  = Ok (map (fun path => map (period_sum mpy dt tenor path) ts)
            (firstn k short_rate_paths)).
Proof.
  intros _ Hts Hidx Hk. now apply get_forward_rates_periods.
Qed.

Lemma get_forward_rates_prefix_witness :
  (forall path, In path [rates13; rates13] -> length path = 13%nat) /\
  np_arange (of_int 0) 1 (1 / 2) = Ok half_year_starts /\
  (forall t, In t half_year_starts ->
     (0 <= to_int (fmul 12%R t))%Z
     /\ (0 <= to_int (fmul 12%R (fadd t (1 / 2)%R)))%Z) /\
  (1 <= length [rates13; rates13])%nat /\
  get_forward_rates (Z.of_nat 1) 12 (1 / 12) 1 (1 / 2) [rates13; rates13]
  = Ok (map (fun path => map (period_sum 12 (1 / 12) (1 / 2) path)
                             half_year_starts)
            (firstn 1 [rates13; rates13])).
Proof.
  split; [exact rates13_pair_rectangular |].
  split; [exact half_year_starts_arange |].
  split; [exact half_year_starts_indices |].
  split; [simpl; lia |].
  apply (@get_forward_rates_prefix R R_arith 12 (1 / 12) 1 (1 / 2)
           [rates13; rates13] 13 1 half_year_starts
           rates13_pair_rectangular half_year_starts_arange
           half_year_starts_indices).
  simpl; lia.
Defined.

(** X10. When the period loop runs at least once, asking the aggregator for
    more simulations than the ensemble has paths raises IndexError, in
    every arithmetic; no partial matrix is returned. *)
Theorem get_forward_rates_too_many
    (F : Type) (Ar : Arith F) (mpy dt T_m tenor : F)
    (short_rate_paths : list (list F)) (steps : nat) (simulations : Z)
    (t0 : F) (ts : list F) :
  (forall path, In path short_rate_paths -> length path = steps) ->
  np_arange (of_int 0) T_m tenor = Ok (t0 :: ts) ->
  (Z.of_nat (length short_rate_paths) < simulations)%Z ->
  get_forward_rates simulations mpy dt T_m tenor short_rate_paths
  = Raise IndexError.
Proof.
  intros _ Hts Hs. eapply get_forward_rates_past; eassumption.
Qed.

Lemma get_forward_rates_too_many_witness :
  (forall path, In path [rates13; rates13] -> length path = 13%nat) /\
  np_arange (of_int 0) 1 (1 / 2)
  = Ok ((0 + INR 0 * (1 / 2)) :: [0 + INR 1 * (1 / 2)]) /\
  (Z.of_nat (length [rates13; rates13]) < 3)%Z /\
  get_forward_rates 3 12 (1 / 12) 1 (1 / 2) [rates13; rates13]
  = Raise IndexError.
Proof.
  split; [exact rates13_pair_rectangular |].
  split; [exact half_year_starts_arange |].
  split; [simpl; lia |].
  apply (@get_forward_rates_too_many R R_arith 12 (1 / 12) 1 (1 / 2)
           [rates13; rates13] 13 3 (0 + INR 0 * (1 / 2))
           [0 + INR 1 * (1 / 2)] rates13_pair_rectangular
           half_year_starts_arange).
  simpl; lia.
Defined.

Section SwapStage.

Context {F : Type} `{Arith F}.

Local Open Scope num_scope.

Variables (mpy T_m N K tenor a sigma : F) (yield_curve : YieldCurve F).

Lemma sim_swap_eval_index (i j : Z) (path : list F) :
  sim_swap_eval (i, mpy, T_m, tenor, N, K, path, yield_curve, a, sigma)
  = sim_swap_eval (j, mpy, T_m, tenor, N, K, path, yield_curve, a, sigma).
Proof. reflexivity. Qed.

(** The matrix of swap values is the workers' results on the paths, in the
    order of the paths; the first exception of a worker is the result. *)
Lemma get_simulations_swap_values_workers (paths : list (list F)) :
  get_simulations_swap_values (Z.of_nat (length paths)) mpy T_m tenor N K
    paths yield_curve a sigma
  = map_result
      (fun path => sim_swap_eval (0%Z, mpy, T_m, tenor, N, K, path,
                                  yield_curve, a, sigma))
      paths.
Proof.
  unfold get_simulations_swap_values.
  rewrite (map_result_total _
             (fun i => (i, mpy, T_m, tenor, N, K,
                        nth (Z.to_nat i) paths [], yield_curve, a, sigma))).
  2:{ intros i Hi. apply py_range_In in Hi.
      rewrite (get_item_nth paths []) by lia. reflexivity. }
  cbn [bind]. rewrite map_result_map.
  rewrite <- (map_result_nth_range
                (fun path => sim_swap_eval (0%Z, mpy, T_m, tenor, N, K, path,
                                            yield_curve, a, sigma))
                paths []).
  apply map_result_ext. intros i _. apply sim_swap_eval_index.
Qed.

Hypothesis Ha : feqb a #0 = false.
Hypothesis H4a : feqb (#4 * a) #0 = false.
Hypothesis Htenor : feqb tenor #0 = false.

Lemma np_arange_runs (start stop : F) :
  exists ts, np_arange start stop tenor = Ok ts.
Proof. unfold np_arange. rewrite Htenor. eexists. reflexivity. Qed.

Lemma P_runs (s t r_s : F) : exists p, P s t r_s a sigma yield_curve = Ok p.
Proof.
  unfold P, A, B, py_div. rewrite Ha, H4a. cbn [bind].
  eexists. reflexivity.
Qed.

Lemma V_accumulate_runs (t r_t : F) (rates dates : list F) (acc : F) :
  get_item rates (to_int (mpy * t)) = Ok r_t ->
  exists v,
    for_each dates (V_accumulate mpy t tenor rates a sigma yield_curve) acc
    = Ok v.
Proof.
  intros Hrate. revert acc.
  induction dates as [| T_i dates IH]; intros acc.
  - exists acc. reflexivity.
  - cbn [for_each]. unfold V_accumulate at 1. rewrite Hrate. cbn [bind].
    destruct (P_runs t T_i r_t) as (p & ->). cbn [bind]. apply IH.
Qed.

Lemma V_runs (t T_0 r_t : F) (rates : list F) :
  get_item rates (to_int (mpy * t)) = Ok r_t ->
  exists v, V mpy t T_0 T_m N K tenor rates a sigma yield_curve = Ok v.
Proof.
  intros Hrate. unfold V. rewrite Hrate. cbn [bind].
  destruct (P_runs t T_0 r_t) as (p0 & ->). cbn [bind].
  destruct (P_runs t T_m r_t) as (pm & ->). cbn [bind].
  destruct (np_arange_runs (T_0 + tenor) (T_m + tenor)) as (dates & ->).
  cbn [bind].
  destruct (V_accumulate_runs t rates dates #0 Hrate) as (term3 & ->).
  cbn [bind]. eexists. reflexivity.
Qed.

Lemma rate_at_step (path : list F) (t : F) :
  (0 <= to_int (fmul mpy t) < Z.of_nat (length path))%Z ->
  exists r_t, get_item path (to_int (mpy * t)) = Ok r_t.
Proof.
  intros Hidx. exists (nth (Z.to_nat (to_int (mpy * t))) path #0).
  now apply get_item_nth.
Qed.

(** A worker returns one value per exercise date, in the order of the
    dates. *)
Lemma sim_swap_eval_runs (i : Z) (path ts : list F) :
  np_arange tenor T_m tenor = Ok ts ->
  (forall t, In t ts ->
     (0 <= to_int (fmul mpy t) < Z.of_nat (length path))%Z) ->
  exists vs,
    sim_swap_eval (i, mpy, T_m, tenor, N, K, path, yield_curve, a, sigma)
    = Ok vs /\
    length vs = length ts /\
    Forall2 (fun t v =>
               V mpy t t T_m N K tenor path a sigma yield_curve = Ok v)
            ts vs.
Proof.
  intros Hts Hidx. unfold sim_swap_eval. rewrite Hts. cbn [bind].
  destruct (map_result_Forall2
              (fun t => V mpy t t T_m N K tenor path a sigma yield_curve) ts)
    as (vs & Hvs & Hall).
  - intros t Ht. destruct (rate_at_step path t (Hidx t Ht)) as (r_t & Hr).
    now apply V_runs with (r_t := r_t).
  - exists vs. repeat split; try assumption.
    symmetry. eapply Forall2_length. eassumption.
Qed.

(** One row per path, in the order of the paths, each with one value per
    exercise date. *)
Lemma get_simulations_swap_values_rows (paths : list (list F))
    (ts : list F) :
  np_arange tenor T_m tenor = Ok ts ->
  (forall path, In path paths -> forall t, In t ts ->
     (0 <= to_int (fmul mpy t) < Z.of_nat (length path))%Z) ->
  exists rows,
    get_simulations_swap_values (Z.of_nat (length paths)) mpy T_m tenor N K
      paths yield_curve a sigma = Ok rows /\
    Forall2 (fun path row =>
               sim_swap_eval (0%Z, mpy, T_m, tenor, N, K, path, yield_curve,
                              a, sigma) = Ok row
               /\ length row = length ts)
            paths rows.
Proof.
  intros Hts Hidx. rewrite get_simulations_swap_values_workers.
  apply map_result_Forall2_with. intros path Hpath.
  destruct (sim_swap_eval_runs 0 path Hts (Hidx path Hpath))
    as (vs & Hvs & Hlen & _).
  now exists vs.
Qed.

End SwapStage.

Lemma Forall2_In_right (A B : Type) (Q : A -> B -> Prop) (xs : list A)
    (ys : list B) (y : B) :
  Forall2 Q xs ys -> In y ys -> exists x, In x xs /\ Q x y.
Proof.
  induction 1 as [| x y' xs ys HQ _ IH]; intros Hin; [contradiction |].
  destruct Hin as [<- | Hin].
  - exists x. split; [now left | exact HQ].
  - destruct (IH Hin) as (x' & Hx' & HQ'). exists x'. split; [now right | exact HQ'].
Qed.

Section PricingStage.

Context {F : Type} `{Arith F}.

Local Open Scope num_scope.

Lemma column0_runs (rows : list (list F)) :
  rows <> [] -> (forall row, In row rows -> row <> []) ->
  exists col, column0 rows = Ok col /\ length col = length rows.
Proof.
  intros Hne Hrows.
  destruct (map_result_Forall2 (fun row : list F => get_item row 0) rows)
    as (col & Hcol & Hall).
  - intros row Hrow. specialize (Hrows row Hrow).
    destruct row as [| x row]; [congruence |]. exists x. reflexivity.
  - exists col. split.
    + unfold column0. destruct rows; [congruence | exact Hcol].
    + symmetry. eapply Forall2_length. eassumption.
Qed.

Lemma discounted_payoff_runs (swap_values : list F) (T_n : F)
    (forward_rates : list (list F)) (z : Z) :
  (0 <= z < Z.of_nat (length swap_values))%Z ->
  (length swap_values <= length forward_rates)%nat ->
  exists y, discounted_payoff swap_values T_n forward_rates z = Ok y.
Proof.
  intros Hz Hrows. unfold discounted_payoff.
  rewrite (get_item_nth swap_values #0) by lia. cbn [bind].
  destruct (fgtb _ _); [| eexists; reflexivity].
  rewrite (get_item_nth forward_rates []) by lia. cbn [bind].
  eexists. reflexivity.
Qed.

Lemma price_european_MC_runs (swap_values : list F) (T_n : F)
    (forward_rates : list (list F)) :
  swap_values <> [] ->
  (length swap_values <= length forward_rates)%nat ->
  exists v, price_european_MC swap_values T_n forward_rates = Ok v.
Proof.
  intros Hne Hrows. unfold price_european_MC.
  destruct (map_result_Forall2
              (discounted_payoff swap_values T_n forward_rates)
              (py_range 0 (Z.of_nat (length swap_values))))
    as (ps & -> & _).
  - intros z Hz. apply py_range_In in Hz.
    now apply discounted_payoff_runs.
  - cbn [bind].
    destruct (Z.eqb_spec (Z.of_nat (length swap_values)) 0) as [Hz | _].
    + destruct swap_values; [congruence | simpl in Hz; lia].
    + eexists. reflexivity.
Qed.

Variable draw : nat -> nat -> F.
Variables (mpy dt r0 a sigma T_m tenor N K : F).
Variables (theta : F -> result F) (yield_curve : YieldCurve F).

Hypothesis H2a : feqb (#2 * a) #0 = false.

(** The ensemble the first stage hands to the later ones. *)
Lemma short_rate_ensemble (simulations : Z) (n : nat) :
  (1 <= n)%nat -> (0 < simulations)%Z -> Z.even simulations = true ->
  exists paths,
    get_short_rates draw simulations (Z.of_nat n) dt r0 a sigma theta
      yield_curve = Ok paths /\
    paths <> [] /\
    simulations = Z.of_nat (length paths) /\
    forall path, In path paths -> length path = n.
Proof.
  intros Hn Hs Hev.
  assert (Hq : py_div (sigma ^ 2) (#2 * a) = Ok (sigma ^ 2 / (#2 * a))).
  { unfold py_div. now rewrite H2a. }
  destruct (@get_short_rates_runs F _ draw dt r0 a sigma _ yield_curve n Hq
              Hn simulations theta)
    as (rz & paths & _ & Hrun & _ & Hlen & Hrows); [lia | assumption |].
  exists paths. split; [exact Hrun |]. split; [| split].
  - intros ->. simpl in Hlen. lia.
  - lia.
  - intros path Hin. apply In_nth_error in Hin. destruct Hin as (i & Hi).
    assert (Hlt : (i < Z.to_nat simulations)%nat).
    { rewrite <- Hlen. apply nth_error_Some. congruence. }
    destruct (Hrows i Hlt) as (Zi & r_i & _ & Hri & _ & Hlen_i & _).
    congruence.
Qed.

Hypothesis Ha : feqb a #0 = false.
Hypothesis H4a : feqb (#4 * a) #0 = false.
Hypothesis Htenor : feqb tenor #0 = false.

(** The cell returns a price when every stage has what it reads. *)
Lemma european_sim_value_returns (simulations : Z) (n : nat) (ts : list F) :
  (0 < simulations)%Z -> Z.even simulations = true ->
  np_arange tenor T_m tenor = Ok ts -> ts <> [] ->
  (forall t, In t ts -> (0 <= to_int (fmul mpy t) < Z.of_nat n)%Z) ->
  exists v,
    european_sim_value draw simulations (Z.of_nat n) mpy dt r0 a sigma theta
      yield_curve T_m tenor N K = Ok v.
Proof.
  intros Hs Hev Hts Hne Hidx.
  assert (Hn : (1 <= n)%nat).
  { destruct ts as [| t ts']; [congruence |].
    specialize (Hidx t (or_introl eq_refl)). lia. }
  destruct (short_rate_ensemble Hn Hs Hev)
    as (paths & Hrun & Hpaths & Hsims & Hlen).
  unfold european_sim_value. rewrite Hrun. cbn [bind]. rewrite Hsims.
  destruct (@np_arange_runs F _ tenor Htenor #0 T_m) as (ts0 & Hts0).
  rewrite (@get_forward_rates_rows F _ mpy dt T_m tenor paths _ ts0 Hts0 (Nat.le_refl _)).
  cbn [bind].
  destruct (@get_simulations_swap_values_rows F _ mpy T_m N K tenor a sigma
              yield_curve Ha H4a Htenor paths ts Hts) as (rows & -> & Hall).
  { intros path Hpath t Ht. rewrite (Hlen path Hpath). now apply Hidx. }
  cbn [bind].
  assert (Hrows_len : length rows = length paths)
    by (symmetry; eapply Forall2_length; eassumption).
  destruct (column0_runs (rows := rows)) as (col & -> & Hcol).
  - intros ->. destruct paths; [congruence | discriminate].
  - intros row Hrow.
    destruct (@Forall2_In_right _ _ _ _ _ row Hall Hrow) as (path & _ & _ & Hlen_row).
    intros ->. destruct ts; [congruence | discriminate].
  - cbn [bind]. apply price_european_MC_runs.
    + intros ->. destruct paths; [congruence | simpl in *; lia].
    + rewrite length_map, firstn_all. lia.
Qed.

End PricingStage.

(** ** The swap values and the pricing cell, in every arithmetic *)

Lemma np_arange_step (F : Type) (Ar : Arith F) (start stop step : F)
    (ts : list F) :
  np_arange start stop step = Ok ts -> feqb step (of_int 0) = false.
Proof.
  unfold np_arange. destruct (feqb step (of_int 0)); [discriminate | reflexivity].
Qed.

Lemma half_year_exercise_dates_arange :
  np_arange (1 / 2) 1 (1 / 2) = Ok half_year_exercise_dates.
Proof.
  rewrite np_arange_R by lra.
  replace ((1 - 1 / 2) / (1 / 2)) with (IZR 1) by lra.
  rewrite Rceil_IZR. reflexivity.
Qed.

Lemma half_year_exercise_dates_indices (t : R) :
  In t half_year_exercise_dates ->
  (0 <= to_int (fmul 12%R t) < Z.of_nat 13)%Z.
Proof.
  intros [<- | []]. cbn [to_int fmul R_arith].
  replace (12 * (1 / 2 + INR 0 * (1 / 2))) with (IZR 6) by (simpl; lra).
  rewrite Rtrunc_nonneg by (apply IZR_le; lia).
  rewrite Int_part_IZR. lia.
Qed.

Lemma rates13_pair_indices (path : list R) :
  In path [rates13; rates13] ->
  forall t, In t half_year_exercise_dates ->
    (0 <= to_int (fmul 12%R t) < Z.of_nat (length path))%Z.
Proof.
  intros Hpath t Ht. rewrite (@rates13_pair_rectangular path Hpath).
  now apply half_year_exercise_dates_indices.
Qed.

Lemma mean_reversion_nonzero :
  feqb (1 / 100)%R (of_int 0) = false
  /\ feqb (fmul (of_int 4) (1 / 100)%R) (of_int 0) = false
  /\ feqb (fmul (of_int 2) (1 / 100)%R) (of_int 0) = false.
Proof.
  repeat split; apply feqb_R_neq; cbn [fmul of_int R_arith]; lra.
Qed.

(** X13. In every arithmetic with a and 4·a not zero, a worker whose path
    holds the step [int(mpy·t)] of every exercise date t of
    [np.arange(tenor, T_m, tenor)] returns one value per exercise date, in
    the order of the dates, each the swap value [V(t, t, T_m, ...)] on this
    path. *)
Theorem sim_swap_eval_values
    (F : Type) (Ar : Arith F) (i : Z) (mpy T_m tenor N K a sigma : F)
    (yield_curve : YieldCurve F) (path ts : list F) :
  feqb a (of_int 0) = false ->
  feqb (fmul (of_int 4) a) (of_int 0) = false ->
  np_arange tenor T_m tenor = Ok ts ->
  (forall t, In t ts ->
     (0 <= to_int (fmul mpy t) < Z.of_nat (length path))%Z) ->
  exists vs,
    sim_swap_eval (i, mpy, T_m, tenor, N, K, path, yield_curve, a, sigma)
    = Ok vs /\
    length vs = length ts /\
    Forall2 (fun t v =>
               V mpy t t T_m N K tenor path a sigma yield_curve = Ok v)
            ts vs.
Proof.
  intros Ha H4a Hts Hidx.
  exact (@sim_swap_eval_runs F Ar mpy T_m N K tenor a sigma yield_curve Ha H4a
           (@np_arange_step _ _ _ _ _ _ Hts) i path ts Hts Hidx).
Qed.

Lemma sim_swap_eval_values_witness :
  feqb (1 / 100)%R (of_int 0) = false /\
  feqb (fmul (of_int 4) (1 / 100)%R) (of_int 0) = false /\
  np_arange (1 / 2) 1 (1 / 2) = Ok half_year_exercise_dates /\
  (forall t, In t half_year_exercise_dates ->
     (0 <= to_int (fmul 12%R t) < Z.of_nat (length rates13))%Z) /\
  exists vs,
    sim_swap_eval (0%Z, 12, 1, 1 / 2, 1, 4 / 100, rates13, flat_curve,
                   1 / 100, 1 / 100) = Ok vs /\
    length vs = length half_year_exercise_dates /\
    Forall2 (fun t v =>
               V 12 t t 1 1 (4 / 100) (1 / 2) rates13 (1 / 100) (1 / 100)
                 flat_curve = Ok v)
            half_year_exercise_dates vs.
Proof.
  split; [exact (proj1 mean_reversion_nonzero) |].
  split; [exact (proj1 (proj2 mean_reversion_nonzero)) |].
  split; [exact half_year_exercise_dates_arange |].
  split; [exact half_year_exercise_dates_indices |].
  exact (@sim_swap_eval_values R R_arith 0 12 1 (1 / 2) 1 (4 / 100) (1 / 100)
           (1 / 100) flat_curve rates13 half_year_exercise_dates
           (proj1 mean_reversion_nonzero)
           (proj1 (proj2 mean_reversion_nonzero))
           half_year_exercise_dates_arange
           half_year_exercise_dates_indices).
Defined.

(** X15. In every arithmetic with a and 4·a not zero, on an ensemble whose
    paths all hold the step of every exercise date, the swap-value stage
    called with the number of paths returns one row per path, in the order
    of the paths; the row of a path is the result of its worker and has one
    value per exercise date. *)
Theorem get_simulations_swap_values_matrix
    (F : Type) (Ar : Arith F) (mpy T_m tenor N K a sigma : F)
    (yield_curve : YieldCurve F) (short_rate_paths : list (list F))
    (ts : list F) :
  feqb a (of_int 0) = false ->
  feqb (fmul (of_int 4) a) (of_int 0) = false ->
  np_arange tenor T_m tenor = Ok ts ->
  (forall path, In path short_rate_paths -> forall t, In t ts ->
     (0 <= to_int (fmul mpy t) < Z.of_nat (length path))%Z) ->
  exists rows,
    get_simulations_swap_values (Z.of_nat (length short_rate_paths)) mpy T_m
      tenor N K short_rate_paths yield_curve a sigma = Ok rows /\
    Forall2 (fun path row =>
               sim_swap_eval (0%Z, mpy, T_m, tenor, N, K, path, yield_curve,
                              a, sigma) = Ok row
               /\ length row = length ts)
            short_rate_paths rows.
Proof.
  intros Ha H4a Hts Hidx.
  exact (@get_simulations_swap_values_rows F Ar mpy T_m N K tenor a sigma
           yield_curve Ha H4a (@np_arange_step _ _ _ _ _ _ Hts) short_rate_paths ts Hts
           Hidx).
Qed.

Lemma get_simulations_swap_values_matrix_witness :
  feqb (1 / 100)%R (of_int 0) = false /\
  feqb (fmul (of_int 4) (1 / 100)%R) (of_int 0) = false /\
  np_arange (1 / 2) 1 (1 / 2) = Ok half_year_exercise_dates /\
  (forall path, In path [rates13; rates13] ->
     forall t, In t half_year_exercise_dates ->
       (0 <= to_int (fmul 12%R t) < Z.of_nat (length path))%Z) /\
  exists rows,
    get_simulations_swap_values (Z.of_nat (length [rates13; rates13])) 12 1
      (1 / 2) 1 (4 / 100) [rates13; rates13] flat_curve (1 / 100) (1 / 100)
    = Ok rows /\
    Forall2 (fun path row =>
               sim_swap_eval (0%Z, 12, 1, 1 / 2, 1, 4 / 100, path,
                              flat_curve, 1 / 100, 1 / 100) = Ok row
               /\ length row = length half_year_exercise_dates)
            [rates13; rates13] rows.
Proof.
  split; [exact (proj1 mean_reversion_nonzero) |].
  split; [exact (proj1 (proj2 mean_reversion_nonzero)) |].
  split; [exact half_year_exercise_dates_arange |].
  split; [exact rates13_pair_indices |].
  exact (@get_simulations_swap_values_matrix R R_arith 12 1 (1 / 2) 1
           (4 / 100) (1 / 100) (1 / 100) flat_curve [rates13; rates13]
           half_year_exercise_dates
           (proj1 mean_reversion_nonzero)
           (proj1 (proj2 mean_reversion_nonzero))
           half_year_exercise_dates_arange rates13_pair_indices).
Defined.

(** X21. In every arithmetic the pricing cell (short rates, forward-rate
    exponents, swap values, their first column, the estimator with
    T_n = tenor) runs to the end and returns a price when 2·a, a and 4·a
    are not zero, the number of simulations is positive and even, there is
    at least one exercise date in [np.arange(tenor, T_m, tenor)], and the
    step [int(mpy·t)] of every exercise date t is one of the simulated
    steps. *)
Theorem european_sim_value_runs
    (F : Type) (Ar : Arith F) (draw : nat -> nat -> F) (simulations : Z)
    (n : nat) (mpy dt r0 a sigma : F) (theta : F -> result F)
    (yield_curve : YieldCurve F) (T_m tenor N K : F) (ts : list F) :
  feqb (fmul (of_int 2) a) (of_int 0) = false ->
  feqb a (of_int 0) = false ->
  feqb (fmul (of_int 4) a) (of_int 0) = false ->
  (0 < simulations)%Z -> Z.even simulations = true ->
  np_arange tenor T_m tenor = Ok ts -> ts <> [] ->
  (forall t, In t ts -> (0 <= to_int (fmul mpy t) < Z.of_nat n)%Z) ->
  exists v,
    european_sim_value draw simulations (Z.of_nat n) mpy dt r0 a sigma theta
      yield_curve T_m tenor N K = Ok v.
Proof.
  intros H2a Ha H4a Hs Hev Hts Hne Hidx.
  exact (@european_sim_value_returns F Ar draw mpy dt r0 a sigma T_m tenor N K
           theta yield_curve H2a Ha H4a (@np_arange_step _ _ _ _ _ _ Hts) simulations n ts
           Hs Hev Hts Hne Hidx).
Qed.

Lemma european_sim_value_runs_witness :
  feqb (fmul (of_int 2) (1 / 100)%R) (of_int 0) = false /\
  feqb (1 / 100)%R (of_int 0) = false /\
  feqb (fmul (of_int 4) (1 / 100)%R) (of_int 0) = false /\
  (0 < 4)%Z /\ Z.even 4 = true /\
  np_arange (1 / 2) 1 (1 / 2) = Ok half_year_exercise_dates /\
  half_year_exercise_dates <> [] /\
  (forall t, In t half_year_exercise_dates ->
     (0 <= to_int (fmul 12%R t) < Z.of_nat 13)%Z) /\
  exists v,
    european_sim_value draw_cols 4 (Z.of_nat 13) 12 (1 / 12) (4 / 100)
      (1 / 100) (1 / 100) theta_fail flat_curve 1 (1 / 2) 1 (4 / 100)
    = Ok v.
Proof.
  split; [exact (proj2 (proj2 mean_reversion_nonzero)) |].
  split; [exact (proj1 mean_reversion_nonzero) |].
  split; [exact (proj1 (proj2 mean_reversion_nonzero)) |].
  split; [lia |]. split; [reflexivity |].
  split; [exact half_year_exercise_dates_arange |].
  split; [discriminate |].
  split; [exact half_year_exercise_dates_indices |].
  refine (@european_sim_value_runs R R_arith draw_cols 4 13 12 (1 / 12)
            (4 / 100) (1 / 100) (1 / 100) theta_fail flat_curve 1 (1 / 2) 1
            (4 / 100) half_year_exercise_dates
            (proj2 (proj2 mean_reversion_nonzero))
            (proj1 mean_reversion_nonzero)
            (proj1 (proj2 mean_reversion_nonzero))
            _ eq_refl half_year_exercise_dates_arange _
            half_year_exercise_dates_indices);
    [lia | discriminate].
Defined.

(** X22. With a maturity of a single tenor there is no exercise date before
    maturity: every row of swap values is empty and the pricing cell raises
    IndexError when it takes their first column. *)
Theorem european_sim_value_single_tenor
    (draw : nat -> nat -> R) (simulations : Z) (n : nat)
    (mpy dt r0 a sigma : R) (theta : R -> result R) (y : YieldCurve R)
    (tau N K : R) :
  a <> 0 -> 0 < tau -> 0 <= mpy ->
  (0 < simulations)%Z -> Z.even simulations = true -> (1 <= n)%nat ->
  european_sim_value draw simulations (Z.of_nat n) mpy dt r0 a sigma theta y
    tau tau N K
  = Raise IndexError.
Proof.
  intros Ha Htau _ Hs Hev Hn.
  assert (H2a : feqb (fmul (of_int 2) a) (of_int 0) = false)
    by (apply feqb_R_neq; cbn [fmul of_int R_arith]; lra).
  assert (Htenor : feqb tau (of_int 0) = false)
    by (apply feqb_R_neq; cbn [of_int R_arith]; lra).
  destruct (@short_rate_ensemble R R_arith draw dt r0 a sigma theta y H2a
              simulations n Hn Hs Hev)
    as (paths & Hrun & Hpaths & Hsims & _).
  unfold european_sim_value. rewrite Hrun. cbn [bind]. rewrite Hsims.
  destruct (@np_arange_runs R R_arith tau Htenor (of_int 0) tau)
    as (ts0 & Hts0).
  rewrite (@get_forward_rates_rows R R_arith mpy dt tau tau paths _ ts0 Hts0
             (Nat.le_refl _)).
  cbn [bind]. rewrite get_simulations_swap_values_workers.
  rewrite (map_result_total _ (fun _ => @nil R)).
  - cbn [bind]. now rewrite column0_empty_rows.
  - intros path _. unfold sim_swap_eval. rewrite np_arange_R by lra.
    replace ((tau - tau) / tau) with (IZR 0) by (field; lra).
    rewrite Rceil_IZR. reflexivity.
Qed.

Lemma european_sim_value_single_tenor_witness :
  (1 / 100 <> 0) /\ (0 < 1 / 2) /\ (0 <= 12) /\
  (0 < 4)%Z /\ Z.even 4 = true /\ (1 <= 13)%nat /\
  european_sim_value draw_cols 4 (Z.of_nat 13) 12 (1 / 12) (4 / 100)
    (1 / 100) (1 / 100) theta_fail flat_curve (1 / 2) (1 / 2) 1 (4 / 100)
  = Raise IndexError.
Proof.
  split; [lra |]. split; [lra |]. split; [lra |].
  split; [lia |]. split; [reflexivity |]. split; [lia |].
  apply (@european_sim_value_single_tenor draw_cols 4 13 12 (1 / 12)
           (4 / 100) (1 / 100) (1 / 100) theta_fail flat_curve (1 / 2) 1
           (4 / 100)); try lra; try lia; reflexivity.
Defined.

(** * The code's arithmetic: IEEE binary64 *)

Set Warnings "-inexact-float".

Section Binary64.

Variable libm_exp : float -> float.

Let b64 : Arith float := B64_arith libm_exp.

Local Existing Instance b64.

Local Open Scope float_scope.
Local Open Scope num_scope.
Local Open Scope py_scope.

(** [np.arange(0.1, 0.2, 0.1)] and [np.arange(0.1 + 0.1, 0.2 + 0.1, 0.1)]. *)
Lemma np_arange_one_tenth : np_arange 0.1 0.2 0.1 = Ok [0.1].
Proof. vm_compute. reflexivity. Qed.

Lemma np_arange_past_two_tenths :
  np_arange (0.1 + 0.1) (0.2 + 0.1) 0.1 = Ok [0.2; 0.30000000000000004].
Proof. vm_compute. reflexivity. Qed.

Lemma np_arange_four_tenths :
  np_arange 0.1 0.4 0.1 = Ok [0.1; 0.2; 0.30000000000000004; 0.4].
Proof. vm_compute. reflexivity. Qed.

Lemma np_arange_months :
  np_arange #0 1 (1 / 12)
  = Ok [0; 0.083333333333333329; 0.16666666666666666; 0.25;
        0.33333333333333331; 0.41666666666666663; 0.5;
        0.58333333333333326; 0.66666666666666663; 0.75;
        0.83333333333333326; 0.91666666666666663].
Proof. vm_compute. reflexivity. Qed.

(** C3. In binary64, with a tenor of 0.1 and a maturity of 0.2, the only
    candidate exercise time is t = 0.1, and the swap valuator called there
    (T_0 = t) sums the bond prices of two payment dates, 0.2 and
    0.30000000000000004: the second lies after the maturity T_m = 0.2, so
    the sum does not stop at T_m. *)
Theorem V_pays_after_maturity
    (N K a sigma : float) (rates : list float)
    (yield_curve : YieldCurve float) :
  np_arange 0.1 0.2 0.1 = Ok [0.1] /\
  np_arange (0.1 + 0.1) (0.2 + 0.1) 0.1 = Ok [0.2; 0.30000000000000004] /\
  PrimFloat.ltb 0.2 0.30000000000000004 = true /\
  V 12 0.1 0.1 0.2 N K 0.1 rates a sigma yield_curve
  = (r_t <- get_item rates 1 ;;
     term1 <- P 0.1 0.1 r_t a sigma yield_curve ;;
     term2 <- P 0.1 0.2 r_t a sigma yield_curve ;;
     p1 <- P 0.1 0.2 r_t a sigma yield_curve ;;
     p2 <- P 0.1 0.30000000000000004 r_t a sigma yield_curve ;;
     Ok (- N * (term1 - term2 - K * (#0 + p1 * 0.1 + p2 * 0.1)))).
Proof.
  split; [exact np_arange_one_tenth |].
  split; [exact np_arange_past_two_tenths |].
  split; [reflexivity |].
  unfold V, V_accumulate. rewrite np_arange_past_two_tenths.
  change (to_int (12 * 0.1)) with 1%Z.
  destruct (get_item rates 1) as [r_t | e]; cbn [bind for_each];
    [| reflexivity].
  destruct (P 0.1 0.1 r_t a sigma yield_curve); cbn [bind]; [| reflexivity].
  destruct (P 0.1 0.2 r_t a sigma yield_curve); cbn [bind]; [| reflexivity].
  destruct (P 0.1 0.30000000000000004 r_t a sigma yield_curve);
    reflexivity.
Qed.

(** X25. In binary64, with a tenor of 0.1 and a maturity of 0.4, the
    candidate exercise dates [np.arange(0.1, 0.4, 0.1)] are four, the last
    one the maturity itself; at 12 steps per year their steps are 1, 2, 3
    and 4, and a worker on a path of four steps raises IndexError. *)
Theorem sim_swap_eval_reads_maturity_step
    (N K sigma r0 r1 r2 r3 : float) (yield_curve : YieldCurve float) :
  np_arange 0.1 0.4 0.1 = Ok [0.1; 0.2; 0.30000000000000004; 0.4] /\
  map (fun t => to_int (12 * t)) [0.1; 0.2; 0.30000000000000004; 0.4]
  = [1; 2; 3; 4]%Z /\
  sim_swap_eval (0%Z, 12, 0.4, 0.1, N, K, [r0; r1; r2; r3], yield_curve,
                 0.01, sigma)
  = Raise IndexError.
Proof.
  split; [exact np_arange_four_tenths |].
  split; [reflexivity |].
  unfold sim_swap_eval. rewrite np_arange_four_tenths. cbn [bind].
  vm_compute. reflexivity.
Qed.

(** X26. In binary64, at 12 steps per year with the tenor 1/12 and the
    maturity 1, the aggregator returns twelve exponents per path; the step
    ranges of the periods are not contiguous: the sixth period is empty,
    step 5 is in no period and step 6 is in two. *)
Theorem get_forward_rates_monthly_periods (dt : float) (path : list float) :
  get_forward_rates 1 12 dt 1 (1 / 12) [path]
  = Ok [map (fun p => np_sum (step_terms path dt (fst p) (snd p)))
            [(0, 1); (1, 2); (2, 3); (3, 4); (4, 5); (5, 5); (6, 7);
             (6, 8); (8, 9); (9, 10); (10, 11); (11, 12)]%nat].
Proof.
  refine (@get_forward_rates_periods float b64 12 dt 1 (1 / 12) [path] 1 _
            np_arange_months _ (Nat.le_refl 1)).
  intros t Ht. cbn [In] in Ht.
  repeat (destruct Ht as [<- | Ht]; [split; vm_compute; discriminate |]).
  contradiction.
Qed.

End Binary64.
